(** * dagviz: the metro-style renderer of a DAG, embedded in Rocq

    The development follows the Python sources:
    - [dagviz/render.py]        : [render], the walk over the abstract plot;
    - [dagviz/__init__.py]      : [make_abstract_plot], [render_svg];
    - [dagviz/style/colors.py]  : [palette];
    - [dagviz/style/metro.py]   : the [_Style] drawing backend.

    Python objects become records and inductive types, the [dict] of a row
    becomes a [gmap], the calls on the style object become operations of a
    type class threaded through a state-and-exception monad, and Python
    floats become Rocq's primitive binary64 floats. *)

From Stdlib Require Import ZArith List String Ascii Lia.
From Stdlib Require Import PrimFloat FloatOps SpecFloat FloatAxioms.
From stdpp Require Import base gmap strings list sorting.

Open Scope Z_scope.
Set Warnings "-inexact-float".

(** ** Exceptions and the state-and-exception monad *)

(** The Python exceptions the modelled code can raise. *)
Inductive exn : Type :=
| AttributeError        (* attribute access on [None] *)
| KeyError              (* missing key of a [dict] *)
| IndexError            (* list index out of range *)
| InvalidOrderingError  (* the node sequence is not a topological order *)
| ValueError            (* [int] of a NaN *)
| OverflowError         (* [int] of an infinity *)
| ZeroDivisionError.    (* [%] by zero *)

(** A computation over a mutable object of type [S]: the object after the
    computation (also when it raised), and the exception or the result. *)
Definition M (S A : Type) : Type := S -> S * (exn + A).

Definition ret {S A} (a : A) : M S A := fun s => (s, inr a).

Definition bind {S A B} (m : M S A) (f : A -> M S B) : M S B :=
  fun s => match m s with
           | (s', inr a) => f a s'
           | (s', inl e) => (s', inl e)
           end.

(** An expression that may raise but does not touch the object. *)
Definition lift {S A} (r : exn + A) : M S A := fun s => (s, r).

Notation "'do' x <~ m ; k" := (bind m (fun x => k))
  (at level 10, x name, m at level 100, k at level 200).
Notation "m >>> k" := (bind m (fun _ => k))
  (at level 100, k at level 200, right associativity).

(** [for x in xs: body x] *)
Fixpoint for_each {S A} (xs : list A) (body : A -> M S unit) : M S unit :=
  match xs with
  | [] => ret tt
  | x :: xs' => body x >>> for_each xs' body
  end.

(** [for x in xs: st = body x st], a loop that carries local variables. *)
Fixpoint for_fold {S A B} (xs : list A) (body : A -> B -> M S B) (st : B) : M S B :=
  match xs with
  | [] => ret st
  | x :: xs' => do st' <~ body x st; for_fold xs' body st'
  end.

(** ** The abstract plot (the classes [render] reads)

    The attributes are those [render] accesses: [col.column], [col.color],
    [col.is_node], [col.is_input], [col.is_last], [col.start_row];
    [row.row], [row.label], [row.columns]; [plot.rows], [plot.colors],
    [plot.columns.start].  A cell carries [is_node] and [is_input] as two
    flags: a row's cells are keyed by column index, so an input that arrives
    on the node's own column shares the node's cell. *)
Inductive AbstractColumn : Type :=
  mkColumn (column color : Z) (is_node is_input is_last : bool)
           (start_row : option AbstractRow)
with AbstractRow : Type :=
  mkRow (row : Z) (label : string) (columns : gmap Z AbstractColumn).

Definition column (c : AbstractColumn) : Z :=
  match c with mkColumn x _ _ _ _ _ => x end.
Definition color (c : AbstractColumn) : Z :=
  match c with mkColumn _ x _ _ _ _ => x end.
Definition is_node (c : AbstractColumn) : bool :=
  match c with mkColumn _ _ x _ _ _ => x end.
Definition is_input (c : AbstractColumn) : bool :=
  match c with mkColumn _ _ _ x _ _ => x end.
Definition is_last (c : AbstractColumn) : bool :=
  match c with mkColumn _ _ _ _ x _ => x end.
Definition start_row (c : AbstractColumn) : option AbstractRow :=
  match c with mkColumn _ _ _ _ _ x => x end.

Definition row (r : AbstractRow) : Z :=
  match r with mkRow x _ _ => x end.
Definition label (r : AbstractRow) : string :=
  match r with mkRow _ x _ => x end.
Definition columns (r : AbstractRow) : gmap Z AbstractColumn :=
  match r with mkRow _ _ x => x end.

(** Python's [range] object, of which [render] reads [start]. *)
Record range : Type := mkRange { start : Z; stop : Z }.

Record AbstractPlot : Type := mkPlot {
  rows : list AbstractRow;
  plot_columns : range;   (* [plot.columns] *)
  colors : Z              (* [plot.colors] *)
}.

(** Order of two dictionary items by key. *)
Definition key_le (x y : Z * AbstractColumn) : Prop := x.1 <= y.1.

#[global] Instance key_le_dec : RelDecision key_le.
Proof. intros x y. unfold key_le. apply _. Defined.

(** Modelled from the spec: [AbstractRow.__iter__] is not among the sources;
    the spec has the renderer "process its Columns in ascending column-index
    order".  [row_iter r] is the sequence [for col in row] walks. *)
Definition row_iter (r : AbstractRow) : list AbstractColumn :=
  (merge_sort key_le (map_to_list (columns r))).*2.

(** ** The style interface ([iStyle]) *)

Definition Pos : Type := Z * Z.

(** The methods [render] calls on the style object.  Each may change the
    object and may raise. *)
Class iStyle (S : Type) : Type := {
  place_node : Pos -> Z -> string -> M S unit;
  place_left_hline : Pos -> Pos -> Z -> M S unit;
  place_right_hline : Pos -> Pos -> Z -> M S unit;
  place_vline_arc : Pos -> Pos -> Z -> M S unit;
  place_vline_node : Pos -> Pos -> Z -> M S unit;
  place_left_arc : Pos -> Z -> M S unit;
  place_right_arc : Pos -> Z -> M S unit;
  place_label : Pos -> Pos -> string -> M S unit;
  dumps : M S string
}.

(** ** [render] *)

(** The local variables of the loop over a row's columns. *)
Record scan_state : Type := mkScan {
  last_col : Z;
  arcs : list AbstractColumn;
  nodepos : Pos;
  node_pos : Z
}.

Definition set_last_col (v : Z) (st : scan_state) : scan_state :=
  mkScan v (arcs st) (nodepos st) (node_pos st).
Definition set_arcs (v : list AbstractColumn) (st : scan_state) : scan_state :=
  mkScan (last_col st) v (nodepos st) (node_pos st).
Definition set_nodepos (v : Pos) (st : scan_state) : scan_state :=
  mkScan (last_col st) (arcs st) v (node_pos st).
Definition set_node_pos (v : Z) (st : scan_state) : scan_state :=
  mkScan (last_col st) (arcs st) (nodepos st) v.

(** The values at the start of each row:
    [last_col = 0; arcs = []; nodepos = (0, 0); node_pos = 1]. *)
Definition scan_init : scan_state := mkScan 0 [] (0, 0) 1.

(** The three arguments of [place_vline_arc] and [place_vline_node]:
    [(col.column, col.start_row.row), curpos,
     col.start_row.columns[col.column].color],
    evaluated left to right. *)
Definition vline_args (col : AbstractColumn) (curpos : Pos) : exn + (Pos * Pos * Z) :=
  match start_row col with
  | None => inl AttributeError
  | Some sr =>
      match columns sr !! column col with
      | None => inl KeyError
      | Some c => inr ((column col, row sr), curpos, color c)
      end
  end.

Section Render.
Context {S : Type} `{!iStyle S}.

(** [style.place_vline_arc(...)] with its arguments. *)
Definition call_vline_arc (col : AbstractColumn) (curpos : Pos) : M S unit :=
  do a <~ lift (vline_args col curpos);
  place_vline_arc a.1.1 a.1.2 a.2.

(** [style.place_vline_node(...)] with its arguments. *)
Definition call_vline_node (col : AbstractColumn) (curpos : Pos) : M S unit :=
  do a <~ lift (vline_args col curpos);
  place_vline_node a.1.1 a.1.2 a.2.

(** [if col.is_node: ...] (the first one of the loop body). *)
Definition node_part (r : AbstractRow) (col : AbstractColumn) (curpos : Pos)
    (st : scan_state) : M S scan_state :=
  if is_node col then
    let st := set_nodepos curpos st in
    place_node curpos (color col) (label r) >>>
    do st <~ match arcs st with
             | [] => ret st
             | a0 :: _ =>
                 place_left_hline (column a0, row r) curpos (color a0) >>>
                 ret (set_arcs [] st)
             end;
    ret (set_node_pos 0 (set_arcs (arcs st ++ [col]) st))
  else ret st.

(** [if col.is_input: ...] *)
Definition input_part (col : AbstractColumn) (curpos : Pos)
    (st : scan_state) : M S scan_state :=
  if is_input col then
    if node_pos st <? 0 then
      let st := set_arcs (arcs st ++ [col]) st in
      place_left_arc curpos (color col) >>>
      (if is_last col then call_vline_arc col curpos else ret tt) >>>
      ret st
    else if node_pos st =? 0 then
      call_vline_node col curpos >>>
      ret st
    else
      let st := set_arcs (arcs st ++ [col]) st in
      place_right_arc curpos (color col) >>>
      (if is_last col then call_vline_arc col curpos else ret tt) >>>
      ret st
  else ret st.

(** The body of [for col in row]. *)
Definition process_col (r : AbstractRow) (col : AbstractColumn)
    (st : scan_state) : M S scan_state :=
  let st := set_last_col (column col) st in
  let curpos := (column col, row r) in
  do st <~ node_part r col curpos st;
  do st <~ input_part col curpos st;
  ret (if is_node col then set_node_pos (-1) st else st).

(** [if len(arcs) >= 2: style.place_right_hline(...)] *)
Definition end_of_row (r : AbstractRow) (st : scan_state) : M S unit :=
  if (2 <=? Z.of_nat (length (arcs st))) then
    match arcs st, last (arcs st) with
    | a0 :: _, Some an =>
        place_right_hline (column a0, row r) (column an, row r) (color an)
    | _, _ => ret tt
    end
  else ret tt.

(** The body of [for row in plot.rows], on the cells [cols] the row yields. *)
Definition render_cells (r : AbstractRow) (cols : list AbstractColumn) : M S unit :=
  do st <~ for_fold cols (process_col r) scan_init;
  end_of_row r st >>>
  place_label (nodepos st) (last_col st + 1, row r) (label r).

Definition render_row (r : AbstractRow) : M S unit :=
  render_cells r (row_iter r).

Definition render_rows (rs : list AbstractRow) : M S unit :=
  for_each rs render_row.

(** [render(plot, styler)]: the value returned or the exception raised. *)
Definition render (plot : AbstractPlot) (styler : Z -> Z -> exn + S) : exn + string :=
  match styler (colors plot) (- start (plot_columns plot)) with
  | inl e => inl e
  | inr style =>
      snd ((render_rows (rows plot) >>> dumps) style)
  end.
End Render.

(** ** The recording style

    A style object that only records the calls it receives, in order.  The
    sequence of primitive calls of a rendering is what this style holds when
    the rendering ends. *)
Inductive Call : Type :=
| PlaceNode (at_ : Pos) (c : Z) (lbl : string)
| PlaceLeftHline (left right : Pos) (c : Z)
| PlaceRightHline (left right : Pos) (c : Z)
| PlaceVlineArc (top bottom : Pos) (c : Z)
| PlaceVlineNode (top bottom : Pos) (c : Z)
| PlaceLeftArc (at_ : Pos) (c : Z)
| PlaceRightArc (at_ : Pos) (c : Z)
| PlaceLabel (nodepos_ at_ : Pos) (lbl : string).

Definition record (c : Call) : M (list Call) unit :=
  fun log => (log ++ [c], inr tt).

#[global] Instance Recorder : iStyle (list Call) := {
  place_node p c l := record (PlaceNode p c l);
  place_left_hline a b c := record (PlaceLeftHline a b c);
  place_right_hline a b c := record (PlaceRightHline a b c);
  place_vline_arc a b c := record (PlaceVlineArc a b c);
  place_vline_node a b c := record (PlaceVlineNode a b c);
  place_left_arc p c := record (PlaceLeftArc p c);
  place_right_arc p c := record (PlaceRightArc p c);
  place_label n p l := record (PlaceLabel n p l);
  dumps := ret EmptyString
}.

(** The calls issued while rendering one row, and how the row ended. *)
Definition row_trace (r : AbstractRow) : list Call * (exn + unit) :=
  render_row (S := list Call) r [].

(** The calls issued while rendering the rows of a plot, and how it ended. *)
Definition render_trace (plot : AbstractPlot) : list Call * (exn + unit) :=
  render_rows (S := list Call) (rows plot) [].

(** The call [c] performed on an arbitrary style object. *)
Definition play {S : Type} `{!iStyle S} (c : Call) : M S unit :=
  match c with
  | PlaceNode p c l => place_node p c l
  | PlaceLeftHline a b c => place_left_hline a b c
  | PlaceRightHline a b c => place_right_hline a b c
  | PlaceVlineArc a b c => place_vline_arc a b c
  | PlaceVlineNode a b c => place_vline_node a b c
  | PlaceLeftArc p c => place_left_arc p c
  | PlaceRightArc p c => place_right_arc p c
  | PlaceLabel n p l => place_label n p l
  end.

(** A recorded run performed on a style object: the calls in order, up to the
    first that raises, then the recorded outcome. *)
Definition replay {S : Type} `{!iStyle S} {A : Type}
    (t : list Call * (exn + A)) : M S A :=
  for_each t.1 play >>> lift t.2.

(** A program over any style object is [natural] when running it on a style
    object is the same as replaying, on that object, the run the recording
    style recorded. *)
Definition natural {A : Type} (p : forall S : Type, iStyle S -> M S A) : Prop :=
  forall (S : Type) (H : iStyle S) (s : S),
    p S H s = replay (p (list Call) Recorder []) s.

(** ** Example plots *)

Definition node_cell (c k : Z) : AbstractColumn :=
  mkColumn c k true false false None.
Definition input_cell (c k : Z) (final : bool) (origin : AbstractRow) : AbstractColumn :=
  mkColumn c k false true final (Some origin).
Definition through_cell (c k : Z) (origin : AbstractRow) : AbstractColumn :=
  mkColumn c k true true true (Some origin).

(** Three rows: [A] and [B] hold a node each, on columns 0 and 1; row [C]
    takes both as final inputs, on columns that precede its node's. *)
Definition rowA : AbstractRow := mkRow 0 "A" {[ 0 := node_cell 0 0 ]}.
Definition rowB : AbstractRow := mkRow 1 "B" {[ 1 := node_cell 1 1 ]}.
Definition rowC : AbstractRow :=
  mkRow 2 "C" (<[ 0 := input_cell 0 0 true rowA ]>
               (<[ 1 := input_cell 1 1 true rowB ]>
                {[ 2 := node_cell 2 2 ]})).
Definition plotABC : AbstractPlot := mkPlot [rowA; rowB; rowC] (mkRange 0 3) 3.

(** One input on each side of the node cell: an input from [src0] on column
    0, the node on column 1, an input from [src2] on column 2. *)
Definition src0 : AbstractRow := mkRow 0 "P" {[ 0 := node_cell 0 0 ]}.
Definition src2 : AbstractRow := mkRow 1 "Q" {[ 2 := node_cell 2 2 ]}.
Definition row_one_each : AbstractRow :=
  mkRow 2 "R" (<[ 0 := input_cell 0 0 true src0 ]>
               (<[ 1 := node_cell 1 1 ]>
                {[ 2 := input_cell 2 2 true src2 ]})).

(** The rows of a linear chain as the spec's scenario has them: after the
    first row, each row holds one cell, the input from the row above landing
    on the node's own column. *)
Fixpoint chain_row (lbl : nat -> string) (i : nat) : AbstractRow :=
  match i with
  | O => mkRow 0 (lbl O) {[ 0 := node_cell 0 0 ]}
  | Datatypes.S j =>
      mkRow (Z.of_nat i) (lbl i) {[ 0 := through_cell 0 0 (chain_row lbl j) ]}
  end.

Definition chain_plot (lbl : nat -> string) (n : nat) : AbstractPlot :=
  mkPlot (map (chain_row lbl) (seq 0 n)) (mkRange 0 1) 1.

Definition abcd (i : nat) : string :=
  match i with O => "A" | 1%nat => "B" | 2%nat => "C" | _ => "D" end.


(** ** What a row draws, cell by cell

    Closed forms of the calls of a row with one node cell [nd], the cells
    [pre] before it and the cells [post] after it in the scan.  They are
    compared with [render] in the theorems below. *)

(** The cell's lookups [col.start_row] and [col.start_row.columns[col.column]]
    succeed. *)
Definition resolves (col : AbstractColumn) : bool :=
  match vline_args col (0, 0) with inr _ => true | inl _ => false end.

(** The cell can be drawn without an exception: a vertical line is drawn for
    a final arc and for an input on the node's column, and needs the origin. *)
Definition drawable (col : AbstractColumn) : bool :=
  implb (is_input col && (is_last col || is_node col)) (resolves col).

(** No cell of [cells] is a node cell; every cell of [cells] can be drawn. *)
Definition no_node (cells : list AbstractColumn) : Prop :=
  Forall (fun c => is_node c = false) cells.
Definition all_drawable (cells : list AbstractColumn) : Prop :=
  Forall (fun c => drawable c = true) cells.

(** The row yields the cells [pre], then its node cell [nd], then the cells
    [post]; no other cell is a node cell, and every cell can be drawn. *)
Definition one_node_row (r : AbstractRow) (pre : list AbstractColumn)
    (nd : AbstractColumn) (post : list AbstractColumn) : Prop :=
  row_iter r = pre ++ nd :: post /\
  no_node pre /\ no_node post /\ is_node nd = true /\
  all_drawable (row_iter r).

(** [col.start_row.row] and [col.start_row.columns[col.column].color]
    (0 where the lookup fails). *)
Definition origin_row (col : AbstractColumn) : Z :=
  match start_row col with Some sr => row sr | None => 0 end.
Definition origin_color (col : AbstractColumn) : Z :=
  match start_row col with
  | Some sr => match columns sr !! column col with Some c => color c | None => 0 end
  | None => 0
  end.

Definition vline_arc_call (r : AbstractRow) (col : AbstractColumn) : Call :=
  PlaceVlineArc (column col, origin_row col) (column col, row r) (origin_color col).
Definition vline_node_call (r : AbstractRow) (col : AbstractColumn) : Call :=
  PlaceVlineNode (column col, origin_row col) (column col, row r) (origin_color col).
Definition right_arc_call (r : AbstractRow) (col : AbstractColumn) : Call :=
  PlaceRightArc (column col, row r) (color col).
Definition left_arc_call (r : AbstractRow) (col : AbstractColumn) : Call :=
  PlaceLeftArc (column col, row r) (color col).

(** The calls for a cell scanned before the node cell. *)
Definition before_calls (r : AbstractRow) (col : AbstractColumn) : list Call :=
  if is_input col then
    right_arc_call r col :: (if is_last col then [vline_arc_call r col] else [])
  else [].

(** The calls for a cell scanned after the node cell. *)
Definition after_calls (r : AbstractRow) (col : AbstractColumn) : list Call :=
  if is_input col then
    left_arc_call r col :: (if is_last col then [vline_arc_call r col] else [])
  else [].

(** The connector drawn at the node cell when [pending] holds the arcs
    collected so far. *)
Definition left_hline_calls (r : AbstractRow) (pending : list AbstractColumn)
    (nd : AbstractColumn) : list Call :=
  match pending with
  | [] => []
  | a0 :: _ => [PlaceLeftHline (column a0, row r) (column nd, row r) (color a0)]
  end.

(** The connector drawn at the end of the row when [pending] holds the arcs
    collected after the node cell. *)
Definition right_hline_calls (r : AbstractRow) (nd : AbstractColumn)
    (pending : list AbstractColumn) : list Call :=
  match last pending with
  | None => []
  | Some an => [PlaceRightHline (column nd, row r) (column an, row r) (color an)]
  end.

(** The calls at the node cell. *)
Definition node_calls (r : AbstractRow) (pending : list AbstractColumn)
    (nd : AbstractColumn) : list Call :=
  PlaceNode (column nd, row r) (color nd) (label r)
  :: left_hline_calls r pending nd
  ++ (if is_input nd then [vline_node_call r nd] else []).

(** [last_col] after a scan over [cells] that started with [d]. *)
Definition last_column (d : Z) (cells : list AbstractColumn) : Z :=
  match last cells with Some c => column c | None => d end.

Definition label_call (r : AbstractRow) (nd : AbstractColumn)
    (post : list AbstractColumn) : Call :=
  PlaceLabel (column nd, row r) (last_column (column nd) post + 1, row r) (label r).

(** All the calls of the row. *)
Definition row_calls (r : AbstractRow) (pre : list AbstractColumn)
    (nd : AbstractColumn) (post : list AbstractColumn) : list Call :=
  flat_map (before_calls r) pre
  ++ node_calls r (List.filter is_input pre) nd
  ++ flat_map (after_calls r) post
  ++ right_hline_calls r nd (List.filter is_input post)
  ++ [label_call r nd post].

(** The scan of the cells of a row by the recording style. *)
Definition scan_cells (r : AbstractRow) (cells : list AbstractColumn)
    : list Call * (exn + scan_state) :=
  for_fold (S := list Call) cells (process_col r) scan_init [].

(** Kinds of calls. *)
Definition is_hline (c : Call) : bool :=
  match c with PlaceLeftHline _ _ _ | PlaceRightHline _ _ _ => true | _ => false end.
Definition is_arc (c : Call) : bool :=
  match c with PlaceLeftArc _ _ | PlaceRightArc _ _ => true | _ => false end.
Definition is_vline_arc (c : Call) : bool :=
  match c with PlaceVlineArc _ _ _ => true | _ => false end.
Definition is_vline_node (c : Call) : bool :=
  match c with PlaceVlineNode _ _ _ => true | _ => false end.
Definition is_label (c : Call) : bool :=
  match c with PlaceLabel _ _ _ => true | _ => false end.

(** ** Python floats

    Python's [float] is IEEE 754 binary64, as Rocq's primitive [float]; [+],
    [-], [*], [/] and the comparisons are those of [PrimFloat].  An [int]
    operand of a mixed operation is converted first: the literals of the
    modelled code convert exactly and are written as float literals. *)

(** C's [fmod] on binary64: the remainder of the division of [x] by [y]
    truncated toward zero, computed exactly. *)
Definition fmod (x y : float) : float :=
  match Prim2SF x, Prim2SF y with
  | S754_nan, _ | _, S754_nan => nan
  | S754_infinity _, _ => nan
  | _, S754_zero _ => nan
  | S754_zero _, _ => x
  | S754_finite _ _ _, S754_infinity _ => x
  | S754_finite sx mx ex, S754_finite _ my ey =>
      let e := Z.min ex ey in
      match (Zpos mx * 2 ^ (ex - e)) mod (Zpos my * 2 ^ (ey - e)) with
      | Zpos p => SF2Prim (S754_finite sx p e)
      | _ => if sx then neg_zero else zero
      end
  end.

(** Python's [x % y] on floats ([float_rem] of CPython). *)
Definition float_mod (x y : float) : exn + float :=
  if (y =? 0)%float then inl ZeroDivisionError
  else
    let m := fmod x y in
    if (m =? 0)%float then inr (if (y <? 0)%float then neg_zero else zero)
    else if xorb (y <? 0)%float (m <? 0)%float then inr (m + y)%float
    else inr m.

(** Python's [int(x)] on a float: truncation toward zero. *)
Definition int_of_float (x : float) : exn + Z :=
  match Prim2SF x with
  | S754_nan => inl ValueError
  | S754_infinity _ => inl OverflowError
  | S754_zero _ => inr 0
  | S754_finite s m e =>
      let v := if 0 <=? e then Zpos m * 2 ^ e else Zpos m / 2 ^ (- e) in
      inr (if s then - v else v)
  end.

Definition hex_digit (d : Z) : ascii :=
  match d with
  | 0 => "0" | 1 => "1" | 2 => "2" | 3 => "3" | 4 => "4" | 5 => "5" | 6 => "6"
  | 7 => "7" | 8 => "8" | 9 => "9" | 10 => "a" | 11 => "b" | 12 => "c"
  | 13 => "d" | 14 => "e" | _ => "f"
  end%char.

Fixpoint hex_digits (fuel : nat) (n : Z) (acc : string) : string :=
  match fuel with
  | O => acc
  | Datatypes.S fuel' =>
      let acc' := String (hex_digit (n mod 16)) acc in
      if n <? 16 then acc' else hex_digits fuel' (n / 16) acc'
  end.

(** The lowercase hexadecimal digits of [n >= 0]. *)
Definition hex (n : Z) : string :=
  hex_digits (Datatypes.S (Z.to_nat (Z.log2 n))) n EmptyString.

Fixpoint zeros (k : nat) : string :=
  match k with O => EmptyString | Datatypes.S k' => String "0"%char (zeros k') end.

(** Python's [format(n, "02x")]: sign, then the digits padded with zeros to
    the width 2, sign included. *)
Definition format_02x (n : Z) : string :=
  if n <? 0 then
    let d := hex (- n) in
    String "-"%char (zeros (1 - String.length d) +:+ d)
  else
    let d := hex n in zeros (2 - String.length d) +:+ d.

Definition ONE_THIRD : float := (1 / 3)%float.
Definition ONE_SIXTH : float := (1 / 6)%float.
Definition TWO_THIRD : float := (2 / 3)%float.

(** Sequencing of expressions that may raise. *)
Definition bind_exn {A B} (r : exn + A) (f : A -> exn + B) : exn + B :=
  match r with inl e => inl e | inr a => f a end.

(** [colorsys._v] *)
Definition _v (m1 m2 hue : float) : exn + float :=
  bind_exn (float_mod hue 1) (fun hue =>
  if (hue <? ONE_SIXTH)%float then inr (m1 + (m2 - m1) * hue * 6)%float
  else if (hue <? 0.5)%float then inr m2
  else if (hue <? TWO_THIRD)%float then inr (m1 + (m2 - m1) * (TWO_THIRD - hue) * 6)%float
  else inr m1).

(** [colorsys.hls_to_rgb] *)
Definition hls_to_rgb (h l s : float) : exn + (float * float * float) :=
  if (s =? 0)%float then inr (l, l, l)
  else
    let m2 := if (l <=? 0.5)%float then (l * (1 + s))%float else (l + s - l * s)%float in
    let m1 := (2 * l - m2)%float in
    bind_exn (_v m1 m2 (h + ONE_THIRD)) (fun r =>
    bind_exn (_v m1 m2 h) (fun g =>
    bind_exn (_v m1 m2 (h - ONE_THIRD)) (fun b =>
    inr (r, g, b)))).

Definition saturation : float := 0.5%float.

(** One iteration of the loop of [palette] on the variables [hue] and
    [lightness]: the color appended and the new values. *)
Definition palette_step (st : float * float) : exn + (string * (float * float)) :=
  let hue := st.1 in
  let lightness := st.2 in
  bind_exn (hls_to_rgb (hue / 6) (0.4 + (lightness / 2) * 0.3) saturation) (fun rgb =>
  bind_exn (float_mod (hue + 1) 7) (fun hue =>
  bind_exn (if (hue =? 0)%float then float_mod (lightness + 1) 3 else inr lightness)
    (fun lightness =>
  bind_exn (int_of_float (rgb.1.1 * 256)) (fun r =>
  bind_exn (int_of_float (rgb.1.2 * 256)) (fun g =>
  bind_exn (int_of_float (rgb.2 * 256)) (fun b =>
  inr (String "#"%char (format_02x r +:+ format_02x g +:+ format_02x b),
       (hue, lightness)))))))).

Fixpoint palette_loop (n : nat) (st : float * float) : exn + list string :=
  match n with
  | O => inr []
  | Datatypes.S n' =>
      bind_exn (palette_step st) (fun cs =>
      bind_exn (palette_loop n' cs.2) (fun colors => inr (cs.1 :: colors)))
  end.

Definition palette (ncolors : Z) : exn + list string :=
  palette_loop (Z.to_nat ncolors) (0%float, 1%float).


(** The values of [hue] and [lightness] at the start of the first 21
    iterations of the loop. *)
Fixpoint palette_states (n : nat) (st : float * float) : list (float * float) :=
  match n with
  | O => []
  | Datatypes.S n' =>
      st :: match palette_step st with
            | inr cs => palette_states n' cs.2
            | inl _ => []
            end
  end.

Definition palette_cycle : list (float * float) :=
  Eval vm_compute in palette_states 21 (0%float, 1%float).

Definition is_lower_hex (a : ascii) : bool :=
  let n := N_of_ascii a in
  ((48 <=? n) && (n <=? 57) || (97 <=? n) && (n <=? 102))%N.

Fixpoint all_lower_hex (s : string) : bool :=
  match s with
  | EmptyString => true
  | String a s' => is_lower_hex a && all_lower_hex s'
  end.

(** ["#"] followed by exactly six lowercase hexadecimal digits. *)
Definition is_hex_color (s : string) : bool :=
  match s with
  | String "#"%char rest => (String.length rest =? 6)%nat && all_lower_hex rest
  | _ => false
  end.

(** ** The metro style ([dagviz/style/metro.py]) *)

(** Python's [float(n)] for an [int]: the nearest binary64, ties to even;
    [OverflowError] beyond the range. *)
Definition float_of_int (n : Z) : exn + float :=
  let f := SF2Prim (binary_normalize prec emax n 0 false) in
  if is_infinity f then inl OverflowError else inr f.

(** Python's [l[i]] on a list: negative indices count from the end. *)
Definition py_index {A : Type} (l : list A) (i : Z) : exn + A :=
  let n := Z.of_nat (length l) in
  let j := if i <? 0 then i + n else i in
  if (0 <=? j) && (j <? n) then
    match l !! Z.to_nat j with Some a => inr a | None => inl IndexError end
  else inl IndexError.

(** Python's [min(a, b)] and [max(a, b)] of two floats: the first argument
    unless the second is strictly smaller (greater). *)
Definition py_min (a b : float) : float := if (b <? a)%float then b else a.
Definition py_max (a b : float) : float := if (a <? b)%float then b else a.

(** [re.sub(r"[^0-9a-zA-Z_-]+", "", s)]: the characters of the class, kept. *)
Definition id_char (a : ascii) : bool :=
  let n := N_of_ascii a in
  ((48 <=? n) && (n <=? 57) || (97 <=? n) && (n <=? 122)
   || (65 <=? n) && (n <=? 90) || (n =? 95) || (n =? 45))%N.

Fixpoint id_chars (s : string) : string :=
  match s with
  | EmptyString => EmptyString
  | String a s' => if id_char a then String a (id_chars s') else id_chars s'
  end.

Module Metro.

Definition XY : Type := float * float.

Record StyleConfig : Type := mkConfig {
  scale : float;
  node_radius : float;
  node_fill : option string;
  node_stroke : string;
  node_stroke_width : float;
  edge_stroke_width : float;
  label_font_family : string;
  label_font_size : string + float;
  label_arrow_stroke : string;
  label_arrow_dash_array : string;
  arc_radius : float;
  minimal_width : float
}.

(** The defaults of the dataclass. *)
Definition default_config : StyleConfig :=
  mkConfig 10 6 None "white" 2 2 "sans-serif" (inl "inherit"%string)
           "lightgrey" "2" 15 500.

(** The elements the style adds to the drawing, with the attributes it
    sets.  [ArcPath p0 radius sweep d] is the path
    ["M x0,y0 a radius,radius 0 0,sweep dx,dy"] of [_arc]. *)
Inductive Element : Type :=
| Circle (center : XY) (r : float) (id fill stroke : string) (stroke_width : float)
| Line (a b : XY) (stroke_width : option float) (stroke : string)
       (stroke_dasharray : option string)
| ArcPath (p0 : XY) (radius : float) (sweep : Z) (d : XY)
          (stroke : string) (stroke_width : float)
| Text (text : string) (insert : XY) (font_family : string)
       (font_size : string + float).

(** The state of a [_Style] object: the groups of the drawing in the order
    they were added to it, the bounding box, the view box once set. *)
Record _Style : Type := mkStyle {
  background : list Element;
  vlines : list Element;
  hline_borders : list Element;
  hlines : list Element;
  nodes : list Element;
  _top : float;
  _left : float;
  _bottom : float;
  _right : float;
  config : StyleConfig;
  shift : Z;
  colors : list string;
  viewbox : option (float * float * float * float)
}.

(** [_Style.__init__] *)
Definition new_style (cfg : StyleConfig) (ncolors : Z) (sh : Z) : exn + _Style :=
  bind_exn (palette ncolors) (fun cs =>
  inr (mkStyle [] [] [] [] [] infinity infinity neg_infinity neg_infinity
               cfg sh cs None)).

Definition set_box (t l b r : float) (s : _Style) : _Style :=
  mkStyle (background s) (vlines s) (hline_borders s) (hlines s) (nodes s)
          t l b r (config s) (shift s) (colors s) (viewbox s).
Definition add_background (e : Element) : M _Style unit := fun s =>
  (mkStyle (background s ++ [e]) (vlines s) (hline_borders s) (hlines s) (nodes s)
           (_top s) (_left s) (_bottom s) (_right s) (config s) (shift s)
           (colors s) (viewbox s), inr tt).
Definition add_vlines (e : Element) : M _Style unit := fun s =>
  (mkStyle (background s) (vlines s ++ [e]) (hline_borders s) (hlines s) (nodes s)
           (_top s) (_left s) (_bottom s) (_right s) (config s) (shift s)
           (colors s) (viewbox s), inr tt).
Definition add_hline_borders (e : Element) : M _Style unit := fun s =>
  (mkStyle (background s) (vlines s) (hline_borders s ++ [e]) (hlines s) (nodes s)
           (_top s) (_left s) (_bottom s) (_right s) (config s) (shift s)
           (colors s) (viewbox s), inr tt).
Definition add_hlines (e : Element) : M _Style unit := fun s =>
  (mkStyle (background s) (vlines s) (hline_borders s) (hlines s ++ [e]) (nodes s)
           (_top s) (_left s) (_bottom s) (_right s) (config s) (shift s)
           (colors s) (viewbox s), inr tt).
Definition add_nodes (e : Element) : M _Style unit := fun s =>
  (mkStyle (background s) (vlines s) (hline_borders s) (hlines s) (nodes s ++ [e])
           (_top s) (_left s) (_bottom s) (_right s) (config s) (shift s)
           (colors s) (viewbox s), inr tt).

(** The coordinates [coord] computes ([dxy] is given in floats: the integer
    offsets the methods pass convert exactly). *)
Definition coord_xy (cfg : StyleConfig) (sh : Z) (xy : Pos) (dxy : XY) : exn + XY :=
  bind_exn (float_of_int (xy.1 + sh)) (fun c =>
  bind_exn (float_of_int xy.2) (fun r =>
  inr (scale cfg * c * 2 + arc_radius cfg * (dxy.1 + 1),
       scale cfg * r * 2 + arc_radius cfg * (dxy.2 + 1))%float)).

(** [coord]: the coordinates, with the bounding box stretched to them. *)
Definition coord (xy : Pos) (dxy : XY) : M _Style XY := fun s =>
  match coord_xy (config s) (shift s) xy dxy with
  | inl e => (s, inl e)
  | inr (x, y) =>
      (set_box (py_min y (_top s)) (py_min x (_left s))
               (py_max y (_bottom s)) (py_max x (_right s)) s,
       inr (x, y))
  end.

Definition top (xy : Pos) : M _Style XY := coord xy (0, -1)%float.
Definition right (xy : Pos) : M _Style XY := coord xy (1, 0)%float.
Definition left (xy : Pos) : M _Style XY := coord xy (-1, 0)%float.

(** [self.colors[color]] *)
Definition color_of (c : Z) : M _Style string := fun s => (s, py_index (colors s) c).

Definition get_config : M _Style StyleConfig := fun s => (s, inr (config s)).

Definition place_node (at_ : Pos) (c : Z) (lbl : string) : M _Style unit :=
  let node_id := String "N"%char (id_chars lbl) in
  do p <~ coord at_ (0, 0)%float;
  do cfg <~ get_config;
  do fill <~ match node_fill cfg with
             | Some f => if String.eqb f EmptyString then color_of c else ret f
             | None => color_of c
             end;
  add_nodes (Circle p (node_radius cfg) node_id fill (node_stroke cfg)
                    (node_stroke_width cfg)).

Definition _place_edge (layer : Element -> M _Style unit) (a b : XY) (c : Z)
    : M _Style unit :=
  do cfg <~ get_config;
  do stroke <~ color_of c;
  layer (Line a b (Some (edge_stroke_width cfg)) stroke None).

Definition _place_hline_border (a b : XY) : M _Style unit :=
  do cfg <~ get_config;
  add_hline_borders
    (Line a b
       (Some (edge_stroke_width cfg
              + 2 * py_min (edge_stroke_width cfg) (node_stroke_width cfg))%float)
       "white" None).

Definition place_left_hline (l r : Pos) (c : Z) : M _Style unit :=
  do a <~ right l;
  do b <~ coord r (0, 0)%float;
  _place_hline_border a b >>>
  _place_edge add_hlines a b c.

Definition place_right_hline (l r : Pos) (c : Z) : M _Style unit :=
  do a <~ coord l (0, 0)%float;
  do b <~ left r;
  _place_hline_border a b >>>
  _place_edge add_hlines a b c.

Definition place_vline_arc (t b : Pos) (c : Z) : M _Style unit :=
  do p <~ coord t (0, 0)%float;
  do q <~ top b;
  _place_edge add_vlines p q c.

Definition place_vline_node (t b : Pos) (c : Z) : M _Style unit :=
  do p <~ coord t (0, 0)%float;
  do q <~ coord b (0, 0)%float;
  _place_edge add_vlines p q c.

(** [_arc(dwg, p0, p1, radius, clockwise, ...)] *)
Definition _arc (p0 p1 : XY) (radius : float) (clockwise : bool)
    (stroke : string) (stroke_width : float) : Element :=
  ArcPath p0 radius (if clockwise then 1 else 0)
          (p1.1 - p0.1, p1.2 - p0.2)%float stroke stroke_width.

Definition place_left_arc (at_ : Pos) (c : Z) : M _Style unit :=
  do center <~ coord at_ (0, 0)%float;
  do cfg <~ get_config;
  let a := (center.1, center.2 - arc_radius cfg)%float in
  let b := (center.1 - arc_radius cfg, center.2)%float in
  do stroke <~ color_of c;
  add_hlines (_arc a b (arc_radius cfg) true stroke (edge_stroke_width cfg)).

Definition place_right_arc (at_ : Pos) (c : Z) : M _Style unit :=
  do center <~ coord at_ (0, 0)%float;
  do cfg <~ get_config;
  let a := (center.1, center.2 - arc_radius cfg)%float in
  let b := (center.1 + arc_radius cfg, center.2)%float in
  do stroke <~ color_of c;
  add_hlines (_arc a b (arc_radius cfg) false stroke (edge_stroke_width cfg)).

Definition place_label (nodepos_ at_ : Pos) (lbl : string) : M _Style unit :=
  do cfg <~ get_config;
  do p <~ coord at_ (0, 0)%float;
  add_nodes (Text lbl p (label_font_family cfg) (label_font_size cfg)) >>>
  do a <~ right nodepos_;
  do b <~ coord at_ (-0.4, 0)%float;
  add_background (Line a b None (label_arrow_stroke cfg)
                       (Some (label_arrow_dash_array cfg))).

(** [_box] *)
Definition _box (s : _Style) : float * float * float * float :=
  let cfg := config s in
  ((_top s - scale cfg)%float, (_left s - scale cfg)%float,
   (_bottom s + scale cfg)%float, py_max (minimal_width cfg) (_right s * 2)%float).

Section Dumps.
(** The serialization of the drawing, done by the SVG library. *)
Variable tostring : _Style -> string.

(** [dumps]: set the view box, serialize. *)
Definition dumps : M _Style string := fun s =>
  let '(t, l, b, r) := _box s in
  let s' := mkStyle (background s) (vlines s) (hline_borders s) (hlines s) (nodes s)
                    (_top s) (_left s) (_bottom s) (_right s) (config s) (shift s)
                    (colors s) (Some (l, t, r - l, b - t)%float) in
  (s', inr (tostring s')).
End Dumps.

(** [svg_renderer(config)]: the builder of style objects. *)
Definition svg_renderer (cfg : StyleConfig) : Z -> Z -> exn + _Style :=
  fun ncolors sh => new_style cfg ncolors sh.

End Metro.

#[global] Instance MetroStyle (tostring : Metro._Style -> string)
    : iStyle Metro._Style := {
  place_node := Metro.place_node;
  place_left_hline := Metro.place_left_hline;
  place_right_hline := Metro.place_right_hline;
  place_vline_arc := Metro.place_vline_arc;
  place_vline_node := Metro.place_vline_node;
  place_left_arc := Metro.place_left_arc;
  place_right_arc := Metro.place_right_arc;
  place_label := Metro.place_label;
  dumps := Metro.dumps tostring
}.

(** ** The plot builder

    [make_abstract_plot] is in [dagviz/__init__.py]; the classes it drives
    ([AbstractPlot.add_row], [AbstractRow.add_input], [AbstractRow.add_node])
    and the graph library are not among the sources. *)

(** A node of the graph as [make_abstract_plot] reads it: [G.nodes[nd]]
    (of which the ["label"] attribute is read), [G.pred[nd]], [G.succ[nd]].
    Node identifiers are strings, so that [f"{nd}"] is [nd]. *)
Record NodeData : Type := mkNode {
  node_label : option string;
  preds : list string;
  succs : list string
}.

Definition Graph : Type := gmap string NodeData.

(** Modelled from the spec: the open track of a node (section 3, "Track"):
    the row where it was opened (an index into [plot.rows]), its column, its
    color and the number of successors that have not consumed it yet. *)
Record Track : Type := mkTrack {
  t_origin : nat;
  t_column : Z;
  t_color : Z;
  t_remaining : Z
}.

(** Modelled from the spec: the [AbstractPlot] under construction: the rows,
    the open tracks by node, the column range and the largest number of
    tracks open at once. *)
Record Builder : Type := mkBuilder {
  b_rows : list AbstractRow;
  b_tracks : gmap string Track;
  b_columns : range;
  b_colors : Z
}.

Definition builder_init : Builder := mkBuilder [] ∅ (mkRange 0 0) 0.

(** The lowest column index from [c] on that is not in [used]. *)
Fixpoint lowest_free (fuel : nat) (c : Z) (used : gset Z) : Z :=
  match fuel with
  | O => c
  | Datatypes.S fuel' =>
      if decide (c ∈ used) then lowest_free fuel' (c + 1) used else c
  end.

Definition used_columns (tracks : gmap string Track) : gset Z :=
  list_to_set (map (fun kt => t_column kt.2) (map_to_list tracks)).

(** Modelled from the spec: [AbstractPlot.add_row(label)] appends an empty row
    and returns it; the row is referred to by its index in [plot.rows]. *)
Definition add_row (lbl : string) : M Builder nat :=
  fun b =>
    let i := length (b_rows b) in
    (mkBuilder (b_rows b ++ [mkRow (Z.of_nat i) lbl ∅])
               (b_tracks b) (b_columns b) (b_colors b),
     inr i).

(** Modelled from the spec (4.1, step 2, and the error condition): locate
    the predecessor's open track, or fail with [InvalidOrderingError] when it
    has none; decrement its count; put an Input cell on the track's column of
    the current row, final when the count reached zero; close the track when
    final. *)
Definition add_input (i : nat) (pred : string) : M Builder unit :=
  fun b =>
    match b_tracks b !! pred with
    | None => (b, inl InvalidOrderingError)
    | Some t =>
        let remaining := t_remaining t - 1 in
        let final := remaining =? 0 in
        let cell := mkColumn (t_column t) (t_color t) false true final
                             (b_rows b !! t_origin t) in
        let put (r : AbstractRow) :=
          mkRow (row r) (label r) (<[ t_column t := cell ]> (columns r)) in
        let tracks :=
          if final then delete pred (b_tracks b)
          else <[ pred := mkTrack (t_origin t) (t_column t) (t_color t) remaining ]>
                 (b_tracks b) in
        (mkBuilder (alter put i (b_rows b)) tracks (b_columns b) (b_colors b),
         inr tt)
    end.

(** Modelled from the spec (4.1, steps 1 and 3): open a track for the node on
    the lowest column that no open track occupies; mark that column of the
    current row as the Node cell (an input that arrived on it stays in the
    cell, which then carries both flags); keep the track open only when the
    node has successors.  The spec leaves the color policy open (section 9):
    here a color belongs to its column slot.  [make_abstract_plot] calls
    [add_node] after the inputs of the row, so a column freed by a final
    input of this row is free for the node. *)
Definition add_node (i : nat) (nd : string) (nsucc : Z) : M Builder unit :=
  fun b =>
    let used := used_columns (b_tracks b) in
    let c := lowest_free (Datatypes.S (size used)) 0 used in
    let put (r : AbstractRow) :=
      let cell :=
        match columns r !! c with
        | Some inp => mkColumn c c true (is_input inp) (is_last inp) (start_row inp)
        | None => mkColumn c c true false false None
        end in
      mkRow (row r) (label r) (<[ c := cell ]> (columns r)) in
    let opened := <[ nd := mkTrack i c c nsucc ]> (b_tracks b) in
    (mkBuilder (alter put i (b_rows b))
               (if 0 <? nsucc then opened else b_tracks b)
               (mkRange (Z.min (start (b_columns b)) c)
                        (Z.max (stop (b_columns b)) (c + 1)))
               (Z.max (b_colors b) (Z.of_nat (size opened))),
     inr tt).

(** The body of [for nd in sequence] of [make_abstract_plot]. *)
Definition plot_node (G : Graph) (nd : string) : M Builder unit :=
  do data <~ lift (match G !! nd with Some d => inr d | None => inl KeyError end);
  do i <~ add_row (default nd (node_label data));
  for_each (preds data) (add_input i) >>>
  add_node i nd (Z.of_nat (length (succs data))).

(** [make_abstract_plot(G, order=sequence)] *)
Definition make_abstract_plot (G : Graph) (sequence : list string) : exn + AbstractPlot :=
  match for_each sequence (plot_node G) builder_init with
  | (b, inr _) => inr (mkPlot (b_rows b) (b_columns b) (b_colors b))
  | (_, inl e) => inl e
  end.

(** [render(make_abstract_plot(G, order=sequence), styler)] *)
Definition render_ordered {S : Type} `{!iStyle S} (G : Graph)
    (sequence : list string) (styler : Z -> Z -> exn + S) : exn + string :=
  match make_abstract_plot G sequence with
  | inl e => inl e
  | inr plot => render plot styler
  end.

(** The calls the recording style receives along the way. *)
Definition render_ordered_trace (G : Graph) (sequence : list string)
    : list Call * (exn + unit) :=
  match make_abstract_plot G sequence with
  | inl e => ([], inl e)
  | inr plot => render_trace plot
  end.

(** The chain [A -> B -> C -> D]. *)
Definition chain_graph : Graph :=
  <[ "A" := mkNode None [] ["B"] ]>
  (<[ "B" := mkNode None ["A"] ["C"] ]>
   (<[ "C" := mkNode None ["B"] ["D"] ]>
    {[ "D" := mkNode None ["C"] [] ]})).

(** Every open track belongs to one of the nodes [seen]. *)
Definition tracks_within (seen : list string) (b : Builder) : Prop :=
  forall q t, b_tracks b !! q = Some t -> In q seen.

(** The run raised [InvalidOrderingError], or it ended normally in a state
    that satisfies [P]. *)
Definition raised_or (P : Builder -> Prop) (res : Builder * (exn + unit)) : Prop :=
  res.2 = inl InvalidOrderingError \/ (res.2 = inr tt /\ P res.1).

(** ** Further example rows and kinds of calls *)

(** A row without a node cell: two final inputs, on columns 0 and 2. *)
Definition row_no_node : AbstractRow :=
  mkRow 2 "R" (<[ 0 := input_cell 0 0 true src0 ]>
               {[ 2 := input_cell 2 2 true src2 ]}).

(** A row whose final input has no origin row. *)
Definition row_no_origin : AbstractRow :=
  mkRow 1 "B" (<[ 0 := mkColumn 0 0 false true true None ]>
               {[ 1 := node_cell 1 1 ]}).

Definition is_place_node (c : Call) : bool :=
  match c with PlaceNode _ _ _ => true | _ => false end.

(** The text of a node or label call. *)
Definition call_text (c : Call) : string :=
  match c with
  | PlaceNode _ _ l | PlaceLabel _ _ l => l
  | _ => EmptyString
  end.

(** The row renders without an exception. *)
Definition row_ok (r : AbstractRow) : Prop := (row_trace r).2 = inr tt.

(** The exception of a cell whose origin does not resolve. *)
Definition origin_error (c : AbstractColumn) : exn :=
  match start_row c with None => AttributeError | Some _ => KeyError end.

(** The 21 colors [palette] cycles through. *)
Definition palette_colors : list string :=
  ["#c65353"; "#c6c653"; "#53c653"; "#53c6c6"; "#5353c6"; "#c653c6"; "#c65353";
   "#d98c8c"; "#d9d98c"; "#8cd98c"; "#8cd9d9"; "#8c8cd9"; "#d98cd9"; "#d98c8c";
   "#993333"; "#999933"; "#339933"; "#339999"; "#333399"; "#993399"; "#993333"
  ]%string.

(** The color of index [k]. *)
Definition palette_color (k : nat) : string :=
  nth (k mod 21) palette_colors EmptyString.

(** Every character of the string is of the class [[0-9a-zA-Z_-]]. *)
Fixpoint all_id_chars (s : string) : bool :=
  match s with
  | EmptyString => true
  | String a s' => id_char a && all_id_chars s'
  end.

(** The number of calls of a kind. *)
Definition count (p : Call -> bool) (cs : list Call) : nat :=
  length (List.filter p cs).

(** A fresh metro style object without palette, with the default
    configuration. *)
Definition style0 : Metro._Style :=
  Metro.mkStyle [] [] [] [] [] infinity infinity neg_infinity neg_infinity
                Metro.default_config 0 [] None.

(** The call draws on the row of index [i]: its position, the ends of a
    connector, the lower end of a vertical segment, the place of a label. *)
Definition on_row (i : Z) (c : Call) : Prop :=
  match c with
  | PlaceNode p _ _ | PlaceLeftArc p _ | PlaceRightArc p _ => p.2 = i
  | PlaceLeftHline a b _ | PlaceRightHline a b _ => a.2 = i /\ b.2 = i
  | PlaceVlineArc _ b _ | PlaceVlineNode _ b _ => b.2 = i
  | PlaceLabel _ p _ => p.2 = i
  end.

(** ** The plot of [A -> C], [B -> C] *)





(** ** Several runs in one process: style objects in a store

    [render] asks the styler for a style object on every run
    ([style = styler(plot.colors, -plot.columns.start)]).  To follow two runs
    made one after the other, the style objects are kept in the state of the
    process and the styler hands out a handle to one of them: it may build a
    new object on each call, as the [builder] of [svg_renderer] does, or
    hand out an object it keeps. *)


Section Store.
Context {S : Type} `{!iStyle S}.




End Store.






(** A metro style object with the default configuration and a palette of
    three colors, as [svg_renderer] builds it. *)
Definition style3 : Metro._Style :=
  Metro.mkStyle [] [] [] [] [] infinity infinity neg_infinity neg_infinity
                Metro.default_config 0 ["#c65353"; "#c6c653"; "#53c653"]%string None.

(** * Theorems *)

(** ** Runs of the recording style *)

Lemma vline_args_resolves (col : AbstractColumn) (pos : Pos) :
  resolves col = true ->
  vline_args col pos = inr ((column col, origin_row col), pos, origin_color col).
Proof.
  unfold resolves, vline_args, origin_row, origin_color.
  destruct (start_row col) as [sr|]; [|discriminate].
  destruct (columns sr !! column col); [reflexivity|discriminate].
Qed.


Lemma last_column_cons (d : Z) (c : AbstractColumn) (cells : list AbstractColumn) :
  last_column d (c :: cells) = last_column (column c) cells.
Proof.
  unfold last_column. destruct cells as [|c' cells]; [reflexivity|].
  rewrite last_cons. destruct (last (c' :: cells)) eqn:E; [reflexivity|].
  apply last_None in E. discriminate.
Qed.

(** A cell scanned while the node cell is still ahead. *)
Lemma process_col_before (r : AbstractRow) (c : AbstractColumn)
    (st : scan_state) (log : list Call) :
  is_node c = false -> drawable c = true -> 0 < node_pos st ->
  process_col r c st log =
    (log ++ before_calls r c,
     inr (mkScan (column c) (arcs st ++ List.filter is_input [c])
                 (nodepos st) (node_pos st))).
Proof.
  intros Hn Hd Hp. unfold process_col, node_part, input_part, before_calls, drawable in *.
  rewrite Hn in *. cbn [bind ret].
  destruct (is_input c) eqn:Hi; cbn [List.filter]; rewrite ?Hi.
  - cbn [set_last_col node_pos arcs nodepos last_col].
    destruct (node_pos st <? 0) eqn:E1; [apply Z.ltb_lt in E1; lia|].
    destruct (node_pos st =? 0) eqn:E2; [apply Z.eqb_eq in E2; lia|].
    destruct (is_last c) eqn:Hl.
    + cbn in Hd. unfold call_vline_arc, bind, lift, place_right_arc, place_vline_arc.
      cbn. unfold record. rewrite (vline_args_resolves _ _ Hd). cbn.
      rewrite <- app_assoc. reflexivity.
    + cbn. unfold record. reflexivity.
  - cbn. rewrite !app_nil_r. destruct st; reflexivity.
Qed.

(** Right-nested form of a list expression. *)
Ltac list_norm :=
  repeat first [ rewrite <- app_assoc | rewrite <- app_comm_cons
               | rewrite app_nil_r | rewrite app_nil_l ].

(** A cell scanned after the node cell. *)
Lemma process_col_after (r : AbstractRow) (c : AbstractColumn)
    (st : scan_state) (log : list Call) :
  is_node c = false -> drawable c = true -> node_pos st < 0 ->
  process_col r c st log =
    (log ++ after_calls r c,
     inr (mkScan (column c) (arcs st ++ List.filter is_input [c])
                 (nodepos st) (node_pos st))).
Proof.
  intros Hn Hd Hp. unfold process_col, node_part, input_part, after_calls, drawable in *.
  rewrite Hn in *. cbn [bind ret].
  destruct (is_input c) eqn:Hi; cbn [List.filter]; rewrite ?Hi.
  - cbn [set_last_col node_pos arcs nodepos last_col].
    destruct (node_pos st <? 0) eqn:E1; [|apply Z.ltb_ge in E1; lia].
    destruct (is_last c) eqn:Hl.
    + cbn in Hd. unfold call_vline_arc, bind, lift, place_left_arc, place_vline_arc.
      cbn. unfold record. rewrite (vline_args_resolves _ _ Hd). cbn.
      rewrite <- app_assoc. reflexivity.
    + cbn. unfold record. reflexivity.
  - cbn. rewrite !app_nil_r. destruct st; reflexivity.
Qed.

(** The node cell, whatever the state of the scan. *)
Lemma process_col_node (r : AbstractRow) (nd : AbstractColumn)
    (st : scan_state) (log : list Call) :
  is_node nd = true -> drawable nd = true ->
  process_col r nd st log =
    (log ++ node_calls r (arcs st) nd,
     inr (mkScan (column nd) [nd] (column nd, row r) (-1))).
Proof.
  intros Hn Hd. unfold process_col, node_part, input_part, node_calls, drawable in *.
  rewrite Hn in *. rewrite orb_true_r, andb_true_r in Hd.
  destruct st as [lc pending np npos].
  cbn [bind ret set_last_col set_nodepos node_pos arcs nodepos last_col].
  unfold place_node, Recorder, record.
  destruct pending as [|a0 rest]; destruct (is_input nd) eqn:Hi; cbn in Hd |- *;
    unfold call_vline_node, bind, lift, record;
    rewrite ?(vline_args_resolves _ _ Hd); cbn; unfold record;
    rewrite <- ?app_assoc; reflexivity.
Qed.

Lemma for_fold_app {S A B : Type} (xs ys : list A) (body : A -> B -> M S B)
    (st : B) (s : S) :
  for_fold (xs ++ ys) body st s =
    (do st' <~ for_fold xs body st; for_fold ys body st') s.
Proof.
  revert st s. induction xs as [|x xs IH]; intros st s; cbn.
  - reflexivity.
  - unfold bind in *. destruct (body x st s) as [s' [e|st']]; [reflexivity|].
    apply IH.
Qed.

(** The cells before the node cell: right arcs, all kept pending. *)
Lemma scan_before (r : AbstractRow) (pre : list AbstractColumn) :
  forall (st : scan_state) (log : list Call),
  no_node pre -> all_drawable pre -> 0 < node_pos st ->
  for_fold pre (process_col r) st log =
    (log ++ flat_map (before_calls r) pre,
     inr (mkScan (last_column (last_col st) pre)
                 (arcs st ++ List.filter is_input pre)
                 (nodepos st) (node_pos st))).
Proof.
  induction pre as [|c pre IH]; intros st log Hn Hd Hp.
  - cbn. unfold ret, last_column. cbn. rewrite !app_nil_r. destruct st; reflexivity.
  - inversion Hn as [|? ? Hn1 Hn2]; inversion Hd as [|? ? Hd1 Hd2]; subst.
    cbn [for_fold]. unfold bind at 1.
    rewrite (process_col_before r c st log Hn1 Hd1 Hp).
    rewrite IH by (cbn; assumption). cbn [last_col arcs nodepos node_pos].
    rewrite last_column_cons. cbn [flat_map].
    rewrite (List.filter_app is_input [c] pre : List.filter is_input (c :: pre) = _).
    rewrite <- !app_assoc. reflexivity.
Qed.

(** The cells after the node cell: left arcs, all kept pending. *)
Lemma scan_after (r : AbstractRow) (post : list AbstractColumn) :
  forall (st : scan_state) (log : list Call),
  no_node post -> all_drawable post -> node_pos st < 0 ->
  for_fold post (process_col r) st log =
    (log ++ flat_map (after_calls r) post,
     inr (mkScan (last_column (last_col st) post)
                 (arcs st ++ List.filter is_input post)
                 (nodepos st) (node_pos st))).
Proof.
  induction post as [|c post IH]; intros st log Hn Hd Hp.
  - cbn. unfold ret, last_column. cbn. rewrite !app_nil_r. destruct st; reflexivity.
  - inversion Hn as [|? ? Hn1 Hn2]; inversion Hd as [|? ? Hd1 Hd2]; subst.
    cbn [for_fold]. unfold bind at 1.
    rewrite (process_col_after r c st log Hn1 Hd1 Hp).
    rewrite IH by (cbn; assumption). cbn [last_col arcs nodepos node_pos].
    rewrite last_column_cons. cbn [flat_map].
    rewrite (List.filter_app is_input [c] post : List.filter is_input (c :: post) = _).
    rewrite <- !app_assoc. reflexivity.
Qed.

(** The scan of a row up to some cell after the node cell. *)
Lemma scan_cells_node (r : AbstractRow) (pre : list AbstractColumn)
    (nd : AbstractColumn) (post : list AbstractColumn) :
  no_node pre -> no_node post -> is_node nd = true ->
  all_drawable (pre ++ nd :: post) ->
  scan_cells r (pre ++ nd :: post) =
    (flat_map (before_calls r) pre
       ++ node_calls r (List.filter is_input pre) nd
       ++ flat_map (after_calls r) post,
     inr (mkScan (last_column (column nd) post)
                 (nd :: List.filter is_input post)
                 (column nd, row r) (-1))).
Proof.
  intros Hpre Hpost Hnd Hd. unfold scan_cells.
  apply Forall_app in Hd as [Hd1 Hd2]. inversion Hd2 as [|? ? Hd3 Hd4]; subst.
  rewrite for_fold_app. unfold bind at 1.
  rewrite (scan_before r pre scan_init [] Hpre Hd1) by (cbn; lia).
  cbn [for_fold app]. unfold bind at 1.
  rewrite (process_col_node r nd _ _ Hnd Hd3).
  rewrite (scan_after r post _ _ Hpost Hd4) by (cbn; lia).
  cbn [last_col arcs nodepos node_pos scan_init app].
  rewrite <- !app_assoc. reflexivity.
Qed.

(** The whole row. *)
Lemma render_cells_calls (r : AbstractRow) (pre : list AbstractColumn)
    (nd : AbstractColumn) (post : list AbstractColumn) :
  no_node pre -> no_node post -> is_node nd = true ->
  all_drawable (pre ++ nd :: post) ->
  render_cells r (pre ++ nd :: post) [] = (row_calls r pre nd post, inr tt).
Proof.
  intros Hpre Hpost Hnd Hd. unfold render_cells. unfold bind at 1.
  pose proof (scan_cells_node r pre nd post Hpre Hpost Hnd Hd) as E.
  unfold scan_cells in E. rewrite E. clear E.
  unfold end_of_row, row_calls, right_hline_calls, label_call.
  cbn [arcs nodepos last_col].
  destruct (List.filter is_input post) as [|a rest] eqn:Hf.
  - change (2 <=? Z.of_nat (length [nd])) with false.
    unfold bind, ret, place_label, Recorder, record. cbn.
    list_norm. reflexivity.
  - assert (Hlen : (2 <=? Z.of_nat (length (nd :: a :: rest))) = true)
      by (apply Z.leb_le; cbn [length]; lia).
    rewrite Hlen. rewrite last_cons.
    destruct (last (a :: rest)) as [an|] eqn:Hl.
    + unfold bind, place_right_hline, place_label, Recorder, record. cbn.
      list_norm. reflexivity.
    + apply last_None in Hl. discriminate.
Qed.

(** ** The calls of a rendering do not depend on the style object *)

Lemma for_each_app {S A : Type} (xs ys : list A) (body : A -> M S unit) (s : S) :
  for_each (xs ++ ys) body s = (for_each xs body >>> for_each ys body) s.
Proof.
  revert s. induction xs as [|x xs IH]; intros s; cbn.
  - reflexivity.
  - unfold bind in *. destruct (body x s) as [s' [e|[]]]; [reflexivity|].
    apply IH.
Qed.

Lemma replay_recorder {A : Type} (t : list Call * (exn + A)) (log : list Call) :
  replay t log = (log ++ t.1, t.2).
Proof.
  destruct t as [cs o]. unfold replay. cbn [fst snd].
  revert log. induction cs as [|c cs IH]; intros log.
  - cbn. rewrite app_nil_r. reflexivity.
  - cbn [for_each]. unfold bind in *.
    assert (E : play c log = (log ++ [c], inr tt)) by (destruct c; reflexivity).
    rewrite E. specialize (IH (log ++ [c])).
    destruct (for_each cs play (log ++ [c])) as [s' [e|[]]];
      cbn in IH |- *; rewrite <- app_assoc in IH; exact IH.
Qed.

(** On the recording style a natural program appends to the log. *)
Lemma natural_recorder {A : Type} (p : forall S : Type, iStyle S -> M S A)
    (log : list Call) :
  natural p ->
  p (list Call) Recorder log =
    (log ++ (p (list Call) Recorder []).1, (p (list Call) Recorder []).2).
Proof. intros Hp. rewrite (Hp _ _ log). apply replay_recorder. Qed.

Lemma natural_ret {A : Type} (a : A) : natural (fun S _ => ret a).
Proof. intros S H s. reflexivity. Qed.

Lemma natural_lift {A : Type} (r : exn + A) : natural (fun S _ => lift r).
Proof. intros S H s. reflexivity. Qed.

Lemma natural_play (c : Call) : natural (fun S H => play c).
Proof.
  intros S H s. unfold replay.
  assert (E : play (S := list Call) c [] = ([c], inr tt)) by (destruct c; reflexivity).
  rewrite E. cbn. unfold bind, ret.
  destruct (play c s) as [s' [e|[]]]; reflexivity.
Qed.

Lemma natural_bind {A B : Type} (m : forall S : Type, iStyle S -> M S A)
    (f : A -> forall S : Type, iStyle S -> M S B) :
  natural m -> (forall a, natural (f a)) ->
  natural (fun S H => do a <~ m S H; f a S H).
Proof.
  intros Hm Hf S H s. unfold bind at 1. rewrite (Hm S H s).
  unfold bind at 1.
  destruct (m (list Call) Recorder []) as [cs [e|a]] eqn:Em.
  - unfold replay. cbn [fst snd]. unfold bind, lift.
    destruct (for_each cs play s) as [s' [e'|[]]]; reflexivity.
  - rewrite (natural_recorder (f a) cs (Hf a)).
    unfold replay. cbn [fst snd]. unfold bind at 1 2.
    rewrite for_each_app. unfold bind, lift.
    destruct (for_each cs play s) as [s' [e'|[]]]; [reflexivity|].
    rewrite (Hf a S H s'). unfold replay, bind, lift. reflexivity.
Qed.

Lemma natural_for_fold {A B : Type} (xs : list A)
    (body : A -> B -> forall S : Type, iStyle S -> M S B) :
  (forall x st, natural (body x st)) ->
  forall st, natural (fun S H => for_fold xs (fun x st => body x st S H) st).
Proof.
  intros Hb. induction xs as [|x xs IH]; intros st; cbn [for_fold].
  - apply natural_ret.
  - apply (natural_bind (body x st)
             (fun st' S H => for_fold xs (fun x st => body x st S H) st'));
      [apply Hb | apply IH].
Qed.

Lemma natural_for_each {A : Type} (xs : list A)
    (body : A -> forall S : Type, iStyle S -> M S unit) :
  (forall x, natural (body x)) ->
  natural (fun S H => for_each xs (fun x => body x S H)).
Proof.
  intros Hb. induction xs as [|x xs IH]; cbn [for_each].
  - apply natural_ret.
  - apply (natural_bind (body x) (fun _ S H => for_each xs (fun x => body x S H)));
      [apply Hb | intros _; apply IH].
Qed.

Lemma natural_call_vline_arc (col : AbstractColumn) (curpos : Pos) :
  natural (fun S H => call_vline_arc col curpos).
Proof.
  unfold call_vline_arc.
  apply (natural_bind (fun S _ => lift (vline_args col curpos))
           (fun a S H => place_vline_arc a.1.1 a.1.2 a.2)).
  - apply natural_lift.
  - intros a. apply (natural_play (PlaceVlineArc a.1.1 a.1.2 a.2)).
Qed.

Lemma natural_call_vline_node (col : AbstractColumn) (curpos : Pos) :
  natural (fun S H => call_vline_node col curpos).
Proof.
  unfold call_vline_node.
  apply (natural_bind (fun S _ => lift (vline_args col curpos))
           (fun a S H => place_vline_node a.1.1 a.1.2 a.2)).
  - apply natural_lift.
  - intros a. apply (natural_play (PlaceVlineNode a.1.1 a.1.2 a.2)).
Qed.

(** [p >>> q] and [do x <~ p; q x] of natural programs, as the goals of the
    lemmas below present them. *)
Ltac natural_step :=
  lazymatch goal with
  | |- natural (fun S H => bind (@?m S H) (fun a => @?f a S H)) =>
      apply (natural_bind m f); [|intros ?]
  | |- natural (fun S H => ret _) => apply natural_ret
  | |- natural (fun S H => place_node ?p ?c ?l) =>
      apply (natural_play (PlaceNode p c l))
  | |- natural (fun S H => place_left_hline ?a ?b ?c) =>
      apply (natural_play (PlaceLeftHline a b c))
  | |- natural (fun S H => place_right_hline ?a ?b ?c) =>
      apply (natural_play (PlaceRightHline a b c))
  | |- natural (fun S H => place_left_arc ?p ?c) =>
      apply (natural_play (PlaceLeftArc p c))
  | |- natural (fun S H => place_right_arc ?p ?c) =>
      apply (natural_play (PlaceRightArc p c))
  | |- natural (fun S H => place_label ?n ?p ?l) =>
      apply (natural_play (PlaceLabel n p l))
  | |- natural (fun S H => call_vline_arc ?c ?p) =>
      apply natural_call_vline_arc
  | |- natural (fun S H => call_vline_node ?c ?p) =>
      apply natural_call_vline_node
  end.

Lemma natural_node_part (r : AbstractRow) (col : AbstractColumn) (curpos : Pos)
    (st : scan_state) :
  natural (fun S H => node_part r col curpos st).
Proof.
  unfold node_part. destruct (is_node col); [|apply natural_ret].
  cbn [arcs set_nodepos].
  destruct (arcs st) as [|a0 rest]; repeat natural_step.
Qed.

Lemma natural_input_part (col : AbstractColumn) (curpos : Pos) (st : scan_state) :
  natural (fun S H => input_part col curpos st).
Proof.
  unfold input_part. destruct (is_input col); [|apply natural_ret].
  destruct (node_pos st <? 0); [|destruct (node_pos st =? 0)];
    destruct (is_last col); repeat natural_step.
Qed.

Lemma natural_process_col (r : AbstractRow) (col : AbstractColumn) (st : scan_state) :
  natural (fun S H => process_col r col st).
Proof.
  unfold process_col.
  apply (natural_bind
           (fun S H => node_part r col (column col, row r) (set_last_col (column col) st))
           (fun st S H => do st <~ input_part col (column col, row r) st;
                          ret (if is_node col then set_node_pos (-1) st else st))).
  - apply natural_node_part.
  - intros st'.
    apply (natural_bind (fun S H => input_part col (column col, row r) st')
             (fun st S H => ret (if is_node col then set_node_pos (-1) st else st))).
    + apply natural_input_part.
    + intros st''. apply natural_ret.
Qed.

Lemma natural_end_of_row (r : AbstractRow) (st : scan_state) :
  natural (fun S H => end_of_row r st).
Proof.
  unfold end_of_row. destruct (2 <=? Z.of_nat (length (arcs st))); [|apply natural_ret].
  destruct (arcs st) as [|a0 rest]; [apply natural_ret|].
  destruct (last (a0 :: rest)); repeat natural_step.
Qed.

Lemma natural_render_cells (r : AbstractRow) (cells : list AbstractColumn) :
  natural (fun S H => render_cells r cells).
Proof.
  unfold render_cells.
  apply (natural_bind
           (fun S H => for_fold cells (process_col r) scan_init)
           (fun st S H => end_of_row r st >>>
                          place_label (nodepos st) (last_col st + 1, row r) (label r))).
  - apply (natural_for_fold cells (fun c st S H => process_col r c st)).
    intros c st. apply natural_process_col.
  - intros st.
    apply (natural_bind (fun S H => end_of_row r st)
             (fun _ S H => place_label (nodepos st) (last_col st + 1, row r) (label r))).
    + apply natural_end_of_row.
    + intros _. natural_step.
Qed.

Lemma natural_render_rows (rs : list AbstractRow) :
  natural (fun S H => render_rows rs).
Proof.
  unfold render_rows.
  apply (natural_for_each rs (fun r S H => render_row r)).
  intros r. apply natural_render_cells.
Qed.

(** ** Rows with one node cell *)

Lemma row_trace_calls (r : AbstractRow) (pre : list AbstractColumn)
    (nd : AbstractColumn) (post : list AbstractColumn) :
  one_node_row r pre nd post ->
  row_trace r = (row_calls r pre nd post, inr tt).
Proof.
  intros (E & Hpre & Hpost & Hnd & Hd). unfold row_trace, render_row.
  rewrite E in *. apply render_cells_calls; assumption.
Qed.

Lemma filter_flat_map {A B : Type} (p : B -> bool) (f : A -> list B) (l : list A) :
  List.filter p (flat_map f l) = flat_map (fun a => List.filter p (f a)) l.
Proof.
  induction l as [|a l IH]; cbn; [reflexivity|].
  rewrite List.filter_app, IH. reflexivity.
Qed.

Lemma flat_map_nil {A B : Type} (f : A -> list B) (l : list A) :
  (forall a, f a = []) -> flat_map f l = [].
Proof. intros H. induction l as [|a l IH]; cbn; rewrite ?H, ?IH; reflexivity. Qed.

Lemma flat_map_filter_map {A B : Type} (f : A -> list B) (q : A -> bool)
    (g : A -> B) (l : list A) :
  (forall a, f a = if q a then [g a] else []) ->
  flat_map f l = map g (List.filter q l).
Proof.
  intros H. induction l as [|a l IH]; cbn; [reflexivity|].
  rewrite H, IH. destruct (q a); reflexivity.
Qed.

Lemma filter_left_hline_calls (p : Call -> bool) (r : AbstractRow)
    (pending : list AbstractColumn) (nd : AbstractColumn) :
  (forall a b c, p (PlaceLeftHline a b c) = false) ->
  List.filter p (left_hline_calls r pending nd) = [].
Proof. intros H. destruct pending; cbn; rewrite ?H; reflexivity. Qed.

Lemma filter_right_hline_calls (p : Call -> bool) (r : AbstractRow)
    (nd : AbstractColumn) (pending : list AbstractColumn) :
  (forall a b c, p (PlaceRightHline a b c) = false) ->
  List.filter p (right_hline_calls r nd pending) = [].
Proof.
  intros H. unfold right_hline_calls. destruct (last pending); cbn; rewrite ?H; reflexivity.
Qed.

(** The arcs of a row, in the order drawn. *)
Lemma row_calls_arcs (r : AbstractRow) (pre : list AbstractColumn)
    (nd : AbstractColumn) (post : list AbstractColumn) :
  List.filter is_arc (row_calls r pre nd post) =
    map (right_arc_call r) (List.filter is_input pre)
    ++ map (left_arc_call r) (List.filter is_input post).
Proof.
  unfold row_calls, node_calls. rewrite !List.filter_app. cbn [List.filter is_arc].
  rewrite !List.filter_app, !filter_flat_map.
  rewrite filter_left_hline_calls, filter_right_hline_calls by reflexivity.
  rewrite (flat_map_filter_map _ is_input (right_arc_call r) pre).
  2: { intros a. unfold before_calls. destruct (is_input a), (is_last a); reflexivity. }
  rewrite (flat_map_filter_map _ is_input (left_arc_call r) post).
  2: { intros a. unfold after_calls. destruct (is_input a), (is_last a); reflexivity. }
  destruct (is_input nd); cbn; list_norm; reflexivity.
Qed.

(** The vertical segments that feed arcs. *)
Lemma row_calls_vline_arcs (r : AbstractRow) (pre : list AbstractColumn)
    (nd : AbstractColumn) (post : list AbstractColumn) :
  List.filter is_vline_arc (row_calls r pre nd post) =
    map (vline_arc_call r)
        (List.filter (fun c => is_input c && is_last c) (pre ++ post)).
Proof.
  unfold row_calls, node_calls. rewrite !List.filter_app. cbn [List.filter is_vline_arc].
  rewrite !List.filter_app, !filter_flat_map.
  rewrite filter_left_hline_calls, filter_right_hline_calls by reflexivity.
  rewrite (flat_map_filter_map _ (fun c => is_input c && is_last c) (vline_arc_call r) pre).
  2: { intros a. unfold before_calls. destruct (is_input a), (is_last a); reflexivity. }
  rewrite (flat_map_filter_map _ (fun c => is_input c && is_last c) (vline_arc_call r) post).
  2: { intros a. unfold after_calls. destruct (is_input a), (is_last a); reflexivity. }
  rewrite map_app. destruct (is_input nd); cbn; list_norm; reflexivity.
Qed.

(** The horizontal connectors. *)
Lemma row_calls_hlines (r : AbstractRow) (pre : list AbstractColumn)
    (nd : AbstractColumn) (post : list AbstractColumn) :
  List.filter is_hline (row_calls r pre nd post) =
    left_hline_calls r (List.filter is_input pre) nd
    ++ right_hline_calls r nd (List.filter is_input post).
Proof.
  unfold row_calls, node_calls. rewrite !List.filter_app. cbn [List.filter is_hline].
  rewrite !List.filter_app, !filter_flat_map.
  rewrite (flat_map_nil _ pre).
  2: { intros a. unfold before_calls. destruct (is_input a), (is_last a); reflexivity. }
  rewrite (flat_map_nil _ post).
  2: { intros a. unfold after_calls. destruct (is_input a), (is_last a); reflexivity. }
  assert (E1 : forall l, List.filter is_hline (left_hline_calls r l nd) = left_hline_calls r l nd)
    by (intros [|? ?]; reflexivity).
  assert (E2 : forall l, List.filter is_hline (right_hline_calls r nd l) = right_hline_calls r nd l)
    by (intros l; unfold right_hline_calls; destruct (last l); reflexivity).
  rewrite E1, E2. destruct (is_input nd); cbn; list_norm; reflexivity.
Qed.

(** The straight verticals that end on a node. *)
Lemma row_calls_vline_nodes (r : AbstractRow) (pre : list AbstractColumn)
    (nd : AbstractColumn) (post : list AbstractColumn) :
  List.filter is_vline_node (row_calls r pre nd post) =
    if is_input nd then [vline_node_call r nd] else [].
Proof.
  unfold row_calls, node_calls. rewrite !List.filter_app. cbn [List.filter is_vline_node].
  rewrite !List.filter_app, !filter_flat_map.
  rewrite filter_left_hline_calls, filter_right_hline_calls by reflexivity.
  rewrite (flat_map_nil _ pre).
  2: { intros a. unfold before_calls. destruct (is_input a), (is_last a); reflexivity. }
  rewrite (flat_map_nil _ post).
  2: { intros a. unfold after_calls. destruct (is_input a), (is_last a); reflexivity. }
  destruct (is_input nd); reflexivity.
Qed.

(** The labels. *)
Lemma row_calls_labels (r : AbstractRow) (pre : list AbstractColumn)
    (nd : AbstractColumn) (post : list AbstractColumn) :
  List.filter is_label (row_calls r pre nd post) = [label_call r nd post].
Proof.
  unfold row_calls, node_calls. rewrite !List.filter_app. cbn [List.filter is_label].
  rewrite !List.filter_app, !filter_flat_map.
  rewrite filter_left_hline_calls, filter_right_hline_calls by reflexivity.
  rewrite (flat_map_nil _ pre).
  2: { intros a. unfold before_calls. destruct (is_input a), (is_last a); reflexivity. }
  rewrite (flat_map_nil _ post).
  2: { intros a. unfold after_calls. destruct (is_input a), (is_last a); reflexivity. }
  destruct (is_input nd); reflexivity.
Qed.

Lemma resolves_origin (c : AbstractColumn) :
  resolves c = true ->
  exists sr oc, start_row c = Some sr /\ columns sr !! column c = Some oc /\
                origin_row c = row sr /\ origin_color c = color oc.
Proof.
  unfold resolves, vline_args, origin_row, origin_color.
  destruct (start_row c) as [sr|]; [|discriminate].
  destruct (columns sr !! column c) as [oc|] eqn:E; [|discriminate].
  intros _. exists sr, oc. repeat split; assumption.
Qed.

Lemma row_iter_singleton (i : Z) (l : string) (k : Z) (c : AbstractColumn) :
  row_iter (mkRow i l {[ k := c ]}) = [c].
Proof. unfold row_iter. cbn [columns]. rewrite map_to_list_singleton. reflexivity. Qed.

Lemma one_node_row_example :
  one_node_row row_one_each
    [input_cell 0 0 true src0] (node_cell 1 1) [input_cell 2 2 true src2].
Proof.
  unfold one_node_row.
  assert (E : row_iter row_one_each =
              [input_cell 0 0 true src0] ++ node_cell 1 1 :: [input_cell 2 2 true src2])
    by (vm_compute; reflexivity).
  rewrite E. repeat split; repeat constructor.
Defined.

Lemma one_node_row_rowC :
  one_node_row rowC
    [input_cell 0 0 true rowA; input_cell 1 1 true rowB] (node_cell 2 2) [].
Proof.
  unfold one_node_row.
  assert (E : row_iter rowC =
              [input_cell 0 0 true rowA; input_cell 1 1 true rowB] ++ [node_cell 2 2])
    by (vm_compute; reflexivity).
  rewrite E. repeat split; repeat constructor.
Defined.

Lemma one_node_row_chain (lbl : nat -> string) (i : nat) :
  one_node_row (chain_row lbl (Datatypes.S i)) []
    (through_cell 0 0 (chain_row lbl i)) [].
Proof.
  unfold one_node_row. cbn [chain_row]. rewrite row_iter_singleton.
  repeat split; try constructor; try constructor.
  unfold drawable, resolves, vline_args. cbn [through_cell is_input is_last is_node start_row column].
  destruct i; cbn [chain_row columns]; rewrite lookup_singleton_eq; reflexivity.
Defined.

(** ** The metro style's vertical segment and label *)

(** [place_vline_arc] adds one line to the group of vertical lines: from the
    coordinates of [t] to those of [b] moved up by one arc radius (the offset
    [(0, -1)] of [top]). *)
Lemma metro_place_vline_arc (s : Metro._Style) (t b : Pos) (c : Z)
    (p q : Metro.XY) (stroke : string) :
  Metro.coord_xy (Metro.config s) (Metro.shift s) t (0, 0)%float = inr p ->
  Metro.coord_xy (Metro.config s) (Metro.shift s) b (0, -1)%float = inr q ->
  py_index (Metro.colors s) c = inr stroke ->
  exists s',
    Metro.place_vline_arc t b c s = (s', inr tt) /\
    Metro.vlines s' =
      Metro.vlines s
      ++ [Metro.Line p q (Some (Metro.edge_stroke_width (Metro.config s))) stroke None].
Proof.
  intros Ep Eq Ec. destruct p as [px py], q as [qx qy].
  unfold Metro.place_vline_arc, Metro.top, Metro._place_edge, Metro.coord,
    Metro.get_config, Metro.color_of, Metro.add_vlines, bind.
  rewrite Ep. cbn [Metro.set_box Metro.config Metro.shift Metro.colors].
  rewrite Eq. cbn [Metro.set_box Metro.config Metro.shift Metro.colors].
  rewrite Ec. eexists. split; reflexivity.
Qed.


(** With the default configuration, the segment that feeds an arc of row 2
    ends at height 40, one arc radius above the row's centre line at 55. *)
Example metro_vline_arc_end :
  Metro.coord_xy Metro.default_config 0 (0, 2) (0, -1)%float = inr (15, 40)%float /\
  Metro.coord_xy Metro.default_config 0 (0, 2) (0, 0)%float = inr (15, 55)%float.
Proof. split; vm_compute; reflexivity. Qed.

(** ** The claims about [render] *)

(** C1 (as amended).  In a row with one node cell, the horizontal connectors
    drawn are exactly these: when at least one arc was collected before the
    node cell, one left connector, drawn at the node cell, from the column of
    the first of those arcs to the node's position; and when at least one arc
    was collected after the node cell, one right connector, drawn at the end
    of the row, from the node's position to the column of the last of those
    arcs.  A side without arcs gets no connector.  (The buffer tested at the
    end of the row holds the node cell too, so its length 2 means one arc.) *)
Theorem C1_connectors (r : AbstractRow) (pre : list AbstractColumn)
    (nd : AbstractColumn) (post : list AbstractColumn) :
  one_node_row r pre nd post ->
  List.filter is_hline (row_trace r).1 =
    match List.filter is_input pre with
    | [] => []
    | a0 :: _ => [PlaceLeftHline (column a0, row r) (column nd, row r) (color a0)]
    end
    ++
    match last (List.filter is_input post) with
    | None => []
    | Some an => [PlaceRightHline (column nd, row r) (column an, row r) (color an)]
    end.
Proof.
  intros H. rewrite (row_trace_calls r pre nd post H). cbn [fst].
  apply row_calls_hlines.
Qed.

Lemma C1_connectors_witness :
  List.filter is_hline (row_trace row_one_each).1 =
    [PlaceLeftHline (0, 2) (1, 2) 0; PlaceRightHline (1, 2) (2, 2) 2].
Proof.
  exact (C1_connectors row_one_each _ _ _ one_node_row_example).
Defined.

(** C1 as stated fails: with exactly one arc before the node cell and exactly
    one after it, both connectors are drawn. *)
Lemma C1_counterexample :
  row_iter row_one_each =
    [input_cell 0 0 true src0] ++ node_cell 1 1 :: [input_cell 2 2 true src2]
  /\ List.filter is_hline (row_trace row_one_each).1 =
       [PlaceLeftHline (0, 2) (1, 2) 0; PlaceRightHline (1, 2) (2, 2) 2].
Proof. split; vm_compute; reflexivity. Qed.

(** C2.  In a row with one node cell, every input cell scanned before the
    node cell is drawn with a right arc and every input cell scanned after it
    with a left arc, at the cell's position and in the cell's color; these are
    all the arcs of the row; and the cells are collected in the pending-arcs
    buffer: at the node cell the buffer holds the inputs before it, at the end
    of the row the node cell and the inputs after it. *)
Theorem C2_arcs_by_side (r : AbstractRow) (pre : list AbstractColumn)
    (nd : AbstractColumn) (post : list AbstractColumn) :
  one_node_row r pre nd post ->
  (forall c, In c pre -> is_input c = true ->
     In (PlaceRightArc (column c, row r) (color c)) (row_trace r).1) /\
  (forall c, In c post -> is_input c = true ->
     In (PlaceLeftArc (column c, row r) (color c)) (row_trace r).1) /\
  List.filter is_arc (row_trace r).1 =
    map (fun c => PlaceRightArc (column c, row r) (color c)) (List.filter is_input pre)
    ++ map (fun c => PlaceLeftArc (column c, row r) (color c)) (List.filter is_input post) /\
  (scan_cells r pre).2 =
    inr (mkScan (last_column 0 pre) (List.filter is_input pre) (0, 0) 1) /\
  (scan_cells r (row_iter r)).2 =
    inr (mkScan (last_column (column nd) post) (nd :: List.filter is_input post)
                (column nd, row r) (-1)).
Proof.
  intros H. pose proof (row_trace_calls r pre nd post H) as Et.
  destruct H as (E & Hpre & Hpost & Hnd & Hd).
  assert (Ea : List.filter is_arc (row_trace r).1 =
               map (right_arc_call r) (List.filter is_input pre)
               ++ map (left_arc_call r) (List.filter is_input post))
    by (rewrite Et; apply row_calls_arcs).
  split; [|split; [|split; [exact Ea|split]]].
  - intros c Hc Hi.
    apply (proj1 (List.filter_In is_arc _ (row_trace r).1)). rewrite Ea.
    apply in_or_app. left. apply (in_map (right_arc_call r)).
    apply List.filter_In. split; assumption.
  - intros c Hc Hi.
    apply (proj1 (List.filter_In is_arc _ (row_trace r).1)). rewrite Ea.
    apply in_or_app. right. apply (in_map (left_arc_call r)).
    apply List.filter_In. split; assumption.
  - rewrite E in Hd. apply Forall_app in Hd as [Hd1 _].
    unfold scan_cells. rewrite (scan_before r pre scan_init [] Hpre Hd1) by (cbn; lia).
    reflexivity.
  - rewrite E in *. rewrite (scan_cells_node r pre nd post Hpre Hpost Hnd Hd).
    reflexivity.
Qed.

Lemma C2_arcs_by_side_witness :
  List.filter is_arc (row_trace row_one_each).1 =
    [PlaceRightArc (0, 2) 0; PlaceLeftArc (2, 2) 2].
Proof.
  exact (proj1 (proj2 (proj2 (C2_arcs_by_side row_one_each _ _ _ one_node_row_example)))).
Defined.

(** C3.  In a row with one node cell, when that cell is also an input (the
    input arrives on the node's own column), the row draws exactly one
    straight vertical to a node, from the origin row of the track to this
    row, on that column and in the color of the origin cell; the arcs of the
    row are those of the other input cells, none for this one.  When the cell
    is the only one of the row the calls are the node, the vertical and the
    label; and such are, in a linear chain, all the rows after the first. *)
Theorem C3_input_on_node_column (r : AbstractRow) (pre : list AbstractColumn)
    (nd : AbstractColumn) (post : list AbstractColumn) :
  one_node_row r pre nd post -> is_input nd = true ->
  exists sr oc,
    start_row nd = Some sr /\ columns sr !! column nd = Some oc /\
    List.filter is_vline_node (row_trace r).1 =
      [PlaceVlineNode (column nd, row sr) (column nd, row r) (color oc)] /\
    List.filter is_arc (row_trace r).1 =
      map (fun c => PlaceRightArc (column c, row r) (color c)) (List.filter is_input pre)
      ++ map (fun c => PlaceLeftArc (column c, row r) (color c)) (List.filter is_input post) /\
    (pre = [] -> post = [] ->
     row_trace r =
       ([PlaceNode (column nd, row r) (color nd) (label r);
         PlaceVlineNode (column nd, row sr) (column nd, row r) (color oc);
         PlaceLabel (column nd, row r) (column nd + 1, row r) (label r)],
        inr tt)) /\
    (forall lbl i,
       row_trace (chain_row lbl (Datatypes.S i)) =
         ([PlaceNode (0, Z.of_nat (Datatypes.S i)) 0 (lbl (Datatypes.S i));
           PlaceVlineNode (0, Z.of_nat i) (0, Z.of_nat (Datatypes.S i)) 0;
           PlaceLabel (0, Z.of_nat (Datatypes.S i)) (1, Z.of_nat (Datatypes.S i))
                      (lbl (Datatypes.S i))],
          inr tt)).
Proof.
  intros H Hi. pose proof (row_trace_calls r pre nd post H) as Et.
  destruct H as (E & Hpre & Hpost & Hnd & Hd).
  assert (Hr : resolves nd = true).
  { rewrite E in Hd. apply Forall_app in Hd as [_ Hd]. inversion Hd as [|? ? Hd1 _]; subst.
    unfold drawable in Hd1. rewrite Hi, Hnd, orb_true_r in Hd1. exact Hd1. }
  destruct (resolves_origin nd Hr) as (sr & oc & Es & Ec & Er & Eo).
  exists sr, oc. split; [exact Es|]. split; [exact Ec|].
  split; [|split; [|split]].
  - rewrite Et. cbn [fst]. rewrite row_calls_vline_nodes, Hi.
    unfold vline_node_call. rewrite Er, Eo. reflexivity.
  - rewrite Et. apply row_calls_arcs.
  - intros -> ->. rewrite Et. unfold row_calls, node_calls, label_call, vline_node_call.
    rewrite Hi, Er, Eo. reflexivity.
  - intros lbl i.
    rewrite (row_trace_calls _ _ _ _ (one_node_row_chain lbl i)).
    unfold row_calls, node_calls, label_call, vline_node_call, origin_row, origin_color.
    cbn [chain_row through_cell is_input start_row column color row label
         flat_map List.filter left_hline_calls right_hline_calls last_column last app].
    destruct i; cbn [chain_row columns row]; rewrite lookup_singleton_eq; reflexivity.
Qed.

Lemma C3_input_on_node_column_witness :
  exists sr oc,
    start_row (through_cell 0 0 (chain_row abcd 1)) = Some sr /\
    columns sr !! column (through_cell 0 0 (chain_row abcd 1)) = Some oc /\
    List.filter is_vline_node (row_trace (chain_row abcd 2)).1 =
      [PlaceVlineNode (column (through_cell 0 0 (chain_row abcd 1)), row sr)
         (column (through_cell 0 0 (chain_row abcd 1)), row (chain_row abcd 2))
         (color oc)].
Proof.
  destruct (C3_input_on_node_column (chain_row abcd 2) [] _ []
              (one_node_row_chain abcd 1) eq_refl)
    as (sr & oc & H1 & H2 & H3 & _).
  exists sr, oc. repeat split; assumption.
Defined.

(** C4.  In a row with one node cell, the vertical segments that feed arcs
    are exactly those of the arc cells (the inputs before and after the node
    cell) whose [is_last] flag is set, one for each, in scan order: from the
    cell's column on the origin row of its track to the cell's own position,
    in the color of the origin cell.  An arc cell whose flag is not set gets
    none.  The metro style draws such a segment as one line that ends one arc
    radius above the position it is given (the offset [(0, -1)]). *)
Theorem C4_final_arc_vertical (r : AbstractRow) (pre : list AbstractColumn)
    (nd : AbstractColumn) (post : list AbstractColumn) :
  one_node_row r pre nd post ->
  List.filter is_vline_arc (row_trace r).1 =
    map (fun c => PlaceVlineArc (column c, origin_row c) (column c, row r)
                                (origin_color c))
        (List.filter (fun c => is_input c && is_last c) (pre ++ post)) /\
  (forall c, In c (pre ++ post) -> is_input c = true -> is_last c = true ->
     exists sr oc,
       start_row c = Some sr /\ columns sr !! column c = Some oc /\
       In (PlaceVlineArc (column c, row sr) (column c, row r) (color oc))
          (row_trace r).1) /\
  (forall (s : Metro._Style) (t b : Pos) (c : Z) (p q : Metro.XY) (stroke : string),
     Metro.coord_xy (Metro.config s) (Metro.shift s) t (0, 0)%float = inr p ->
     Metro.coord_xy (Metro.config s) (Metro.shift s) b (0, -1)%float = inr q ->
     py_index (Metro.colors s) c = inr stroke ->
     exists s',
       Metro.place_vline_arc t b c s = (s', inr tt) /\
       Metro.vlines s' =
         Metro.vlines s
         ++ [Metro.Line p q (Some (Metro.edge_stroke_width (Metro.config s)))
                        stroke None]).
Proof.
  intros H. pose proof (row_trace_calls r pre nd post H) as Et.
  destruct H as (E & Hpre & Hpost & Hnd & Hd).
  assert (Ev : List.filter is_vline_arc (row_trace r).1 =
               map (vline_arc_call r)
                 (List.filter (fun c => is_input c && is_last c) (pre ++ post)))
    by (rewrite Et; apply row_calls_vline_arcs).
  split; [exact Ev|]. split; [|apply metro_place_vline_arc].
  intros c Hc Hi Hl.
  assert (Hr : resolves c = true).
  { rewrite E in Hd. unfold all_drawable in Hd. rewrite Forall_forall in Hd.
    assert (Hin : c ∈ pre ++ nd :: post).
    { apply list_elem_of_In. apply in_app_or in Hc. apply in_or_app.
      destruct Hc; [left|right; right]; assumption. }
    specialize (Hd c Hin). unfold drawable in Hd. rewrite Hi, Hl in Hd. exact Hd. }
  destruct (resolves_origin c Hr) as (sr & oc & Es & Ec & Er & Eo).
  exists sr, oc. split; [exact Es|]. split; [exact Ec|].
  apply (proj1 (List.filter_In is_vline_arc _ (row_trace r).1)). rewrite Ev.
  rewrite <- Er, <- Eo. apply (in_map (vline_arc_call r)).
  apply List.filter_In. split; [assumption|]. rewrite Hi, Hl. reflexivity.
Qed.

Lemma C4_final_arc_vertical_witness :
  List.filter is_vline_arc (row_trace rowC).1 =
    [PlaceVlineArc (0, 0) (0, 2) 0; PlaceVlineArc (1, 1) (1, 2) 1].
Proof.
  exact (proj1 (C4_final_arc_vertical rowC _ _ _ one_node_row_rowC)).
Defined.



(** ** The order of the scan *)

#[local] Instance key_le_trans : Transitive key_le.
Proof. intros x y z. unfold key_le. lia. Qed.

#[local] Instance key_le_total : Total key_le.
Proof. intros x y. unfold key_le. lia. Qed.








(** C9.  In a row with one node cell, from the node cell on the node cell is
    the first entry of the pending-arcs buffer, followed by the inputs seen
    since; and every right-horizontal connector of the row (the connector
    drawn at the end of the row) has its left end at the node's position. *)
Theorem C9_node_first_pending (r : AbstractRow) (pre : list AbstractColumn)
    (nd : AbstractColumn) (post : list AbstractColumn) :
  one_node_row r pre nd post ->
  (forall post1 post2, post = post1 ++ post2 ->
     (scan_cells r (pre ++ nd :: post1)).2 =
       inr (mkScan (last_column (column nd) post1)
                   (nd :: List.filter is_input post1)
                   (column nd, row r) (-1))) /\
  (forall a b k, In (PlaceRightHline a b k) (row_trace r).1 ->
     a = (column nd, row r)).
Proof.
  intros H. pose proof (row_trace_calls r pre nd post H) as Et.
  destruct H as (E & Hpre & Hpost & Hnd & Hd). split.
  - intros post1 post2 ->. rewrite E in Hd.
    rewrite scan_cells_node; [reflexivity|assumption| |assumption|].
    + apply Forall_app in Hpost as [Hp _]. exact Hp.
    + apply Forall_app in Hd as [Hd1 Hd2]. apply Forall_app. split; [exact Hd1|].
      inversion Hd2 as [|? ? Hd3 Hd4]; subst. constructor; [exact Hd3|].
      apply Forall_app in Hd4 as [Hd4 _]. exact Hd4.
  - intros a b k Hin.
    assert (Hf : In (PlaceRightHline a b k) (List.filter is_hline (row_trace r).1))
      by (apply List.filter_In; split; [exact Hin|reflexivity]).
    rewrite Et in Hf. cbn [fst] in Hf. rewrite row_calls_hlines in Hf.
    apply in_app_or in Hf as [Hf|Hf].
    + unfold left_hline_calls in Hf.
      destruct (List.filter is_input pre); [destruct Hf|].
      destruct Hf as [Hf|[]]. discriminate.
    + unfold right_hline_calls in Hf.
      destruct (last (List.filter is_input post)); [|destruct Hf].
      destruct Hf as [Hf|[]]. congruence.
Qed.

Lemma C9_node_first_pending_witness :
  (scan_cells row_one_each
     ([input_cell 0 0 true src0] ++ node_cell 1 1 :: [input_cell 2 2 true src2])).2 =
    inr (mkScan 2 [node_cell 1 1; input_cell 2 2 true src2] (1, 2) (-1)).
Proof.
  exact (proj1 (C9_node_first_pending row_one_each _ _ _ one_node_row_example)
           [input_cell 2 2 true src2] [] eq_refl).
Defined.

(** ** Two runs, one after the other *)








(** ** [palette] *)

Lemma palette_step_cycle (i : nat) :
  (i < 21)%nat ->
  exists c,
    palette_step (nth i palette_cycle (0%float, 1%float)) =
      inr (c, nth (Datatypes.S i mod 21) palette_cycle (0%float, 1%float)) /\
    is_hex_color c = true.
Proof.
  intros Hi.
  do 21 (destruct i as [|i];
         [eexists; split; [vm_compute; reflexivity|vm_compute; reflexivity]|]).
  lia.
Qed.

Lemma palette_loop_cycle (n : nat) :
  forall i, (i < 21)%nat ->
  exists cs,
    palette_loop n (nth i palette_cycle (0%float, 1%float)) = inr cs /\
    length cs = n /\ Forall (fun c => is_hex_color c = true) cs.
Proof.
  induction n as [|n IH]; intros i Hi.
  - exists []. repeat split. constructor.
  - destruct (palette_step_cycle i Hi) as (c & Es & Hc).
    destruct (IH (Datatypes.S i mod 21)%nat) as (cs & El & Hl & Hf).
    { apply Nat.mod_upper_bound. lia. }
    exists (c :: cs). cbn [palette_loop]. rewrite Es. cbn [bind_exn snd fst].
    rewrite El. cbn [bind_exn]. repeat split.
    + cbn [length]. rewrite Hl. reflexivity.
    + constructor; assumption.
Qed.

(** C10.  For every [n >= 0], [palette n] returns (it raises nothing) a list
    of exactly [n] strings, each ["#"] followed by exactly six lowercase
    hexadecimal digits: every component [int(c * 256)] takes two digits. *)
Theorem C10_palette (n : Z) :
  0 <= n ->
  exists cs,
    palette n = inr cs /\ Z.of_nat (length cs) = n /\
    Forall (fun c => is_hex_color c = true) cs.
Proof.
  intros Hn. unfold palette.
  destruct (palette_loop_cycle (Z.to_nat n) 0) as (cs & E & Hl & Hf); [lia|].
  exists cs. split; [exact E|]. split; [|exact Hf].
  rewrite Hl. apply Z2Nat.id. exact Hn.
Qed.

Lemma C10_palette_witness :
  exists cs,
    palette 3 = inr cs /\ Z.of_nat (length cs) = 3 /\
    Forall (fun c => is_hex_color c = true) cs.
Proof. apply (C10_palette 3). lia. Defined.

Example palette_7 :
  palette 7 =
    inr ["#c65353"; "#c6c653"; "#53c653"; "#53c6c6"; "#5353c6"; "#c653c6";
         "#c65353"]%string.
Proof. vm_compute. reflexivity. Qed.

(** ** The plot builder and the order of the nodes *)

Lemma add_input_within (seen : list string) (i : nat) (q : string) (b : Builder) :
  tracks_within seen b -> raised_or (tracks_within seen) (add_input i q b).
Proof.
  intros Hb. unfold add_input.
  destruct (b_tracks b !! q) as [t|] eqn:Eq; [|left; reflexivity].
  right. split; [reflexivity|]. cbn [fst]. intros q' t'. cbn [b_tracks].
  destruct (t_remaining t - 1 =? 0).
  - intros Hq. apply lookup_delete_Some in Hq as [_ Hq]. exact (Hb _ _ Hq).
  - destruct (decide (q = q')) as [<-|Hne].
    + intros _. exact (Hb _ _ Eq).
    + rewrite lookup_insert_ne by exact Hne. apply Hb.
Qed.

Lemma add_inputs_within (seen : list string) (i : nat) (qs : list string) :
  forall b, tracks_within seen b ->
  raised_or (tracks_within seen) (for_each qs (add_input i) b).
Proof.
  induction qs as [|q qs IH]; intros b Hb.
  - right. split; [reflexivity|exact Hb].
  - cbn [for_each]. unfold bind.
    destruct (add_input_within seen i q b Hb) as [E|[E Hb']];
      destruct (add_input i q b) as [b' [e|[]]]; cbn [fst snd] in *; try discriminate.
    + left. exact E.
    + apply IH. exact Hb'.
Qed.

(** A predecessor without an open track stops the loop over the predecessors. *)
Lemma add_inputs_unopened (seen : list string) (i : nat) (p : string)
    (qs : list string) :
  In p qs -> ~ In p seen ->
  forall b, tracks_within seen b ->
  (for_each qs (add_input i) b).2 = inl InvalidOrderingError.
Proof.
  intros Hp Hseen. induction qs as [|q qs IH]; intros b Hb; [destruct Hp|].
  cbn [for_each]. unfold bind.
  destruct (add_input_within seen i q b Hb) as [E|[E Hb']].
  - destruct (add_input i q b) as [b' [e|[]]]; cbn [snd] in *; [exact E|discriminate].
  - destruct Hp as [->|Hp].
    + exfalso. unfold add_input in E.
      destruct (b_tracks b !! p) as [t|] eqn:Ep; [|discriminate].
      exact (Hseen (Hb _ _ Ep)).
    + destruct (add_input i q b) as [b' [e|[]]]; cbn [fst snd] in *; [discriminate|].
      apply IH; assumption.
Qed.

Lemma add_node_within (seen : list string) (i : nat) (nd : string) (n : Z)
    (b : Builder) :
  tracks_within seen b ->
  (add_node i nd n b).2 = inr tt /\ tracks_within (seen ++ [nd]) (add_node i nd n b).1.
Proof.
  intros Hb. split; [reflexivity|]. unfold add_node. cbn [fst].
  intros q t. cbn [b_tracks]. intros Hq. apply in_or_app.
  destruct (0 <? n).
  - destruct (decide (nd = q)) as [<-|Hne]; [right; left; reflexivity|].
    rewrite lookup_insert_ne in Hq by exact Hne. left. exact (Hb _ _ Hq).
  - left. exact (Hb _ _ Hq).
Qed.

Lemma plot_node_within (G : Graph) (seen : list string) (nd : string) (b : Builder) :
  is_Some (G !! nd) -> tracks_within seen b ->
  raised_or (tracks_within (seen ++ [nd])) (plot_node G nd b).
Proof.
  intros [data Ed] Hb. unfold plot_node. rewrite Ed. unfold bind at 1, lift.
  unfold bind at 1. unfold add_row at 1.
  set (b1 := mkBuilder _ _ _ _).
  assert (Hb1 : tracks_within seen b1) by exact Hb.
  unfold bind.
  destruct (add_inputs_within seen (length (b_rows b)) (preds data) b1 Hb1) as [E|[E Hb2]];
    destruct (for_each (preds data) (add_input (length (b_rows b))) b1) as [b2 [e|[]]];
    cbn [fst snd] in *; try discriminate.
  - left. exact E.
  - right. apply add_node_within. exact Hb2.
Qed.

Lemma plot_nodes_within (G : Graph) (l : list string) :
  forall seen b,
  (forall x, In x l -> is_Some (G !! x)) -> tracks_within seen b ->
  raised_or (tracks_within (seen ++ l)) (for_each l (plot_node G) b).
Proof.
  induction l as [|x l IH]; intros seen b HG Hb.
  - right. rewrite app_nil_r. split; [reflexivity|exact Hb].
  - cbn [for_each]. unfold bind.
    destruct (plot_node_within G seen x b (HG x (or_introl eq_refl)) Hb) as [E|[E Hb']];
      destruct (plot_node G x b) as [b' [e|[]]]; cbn [fst snd] in *; try discriminate.
    + left. exact E.
    + rewrite (app_assoc seen [x] l : seen ++ x :: l = _).
      apply IH; [|exact Hb']. intros y Hy. apply HG. right. exact Hy.
Qed.

Lemma plot_node_unopened (G : Graph) (seen : list string) (nd p : string)
    (data : NodeData) (b : Builder) :
  G !! nd = Some data -> In p (preds data) -> ~ In p seen ->
  tracks_within seen b ->
  (plot_node G nd b).2 = inl InvalidOrderingError.
Proof.
  intros Ed Hp Hseen Hb. unfold plot_node. rewrite Ed. unfold bind at 1, lift.
  unfold bind at 1. unfold add_row at 1.
  set (b1 := mkBuilder _ _ _ _).
  assert (Hb1 : tracks_within seen b1) by exact Hb.
  pose proof (add_inputs_unopened seen (length (b_rows b)) p (preds data) Hp Hseen b1 Hb1) as E.
  unfold bind.
  destruct (for_each (preds data) (add_input (length (b_rows b))) b1) as [b2 [e|[]]];
    cbn [snd] in *; [exact E|discriminate].
Qed.

(** C6.  When some node [nd] of the sequence has a predecessor [p] that does
    not occur before it (the sequence is not a topological order), and the
    elements up to [nd] are nodes of the graph, [make_abstract_plot] raises
    [InvalidOrderingError]; no call reaches a style object, and the error is
    what the caller of the rendering gets. *)
Theorem C6_invalid_order (G : Graph) (l1 : list string) (nd p : string)
    (l2 : list string) (data : NodeData) :
  (forall x, In x l1 -> is_Some (G !! x)) ->
  G !! nd = Some data -> In p (preds data) -> ~ In p l1 ->
  make_abstract_plot G (l1 ++ nd :: l2) = inl InvalidOrderingError /\
  render_ordered_trace G (l1 ++ nd :: l2) = ([], inl InvalidOrderingError) /\
  (forall (S : Type) (H : iStyle S) (styler : Z -> Z -> exn + S),
     render_ordered G (l1 ++ nd :: l2) styler = inl InvalidOrderingError).
Proof.
  intros HG Ed Hp Hseen.
  assert (E : make_abstract_plot G (l1 ++ nd :: l2) = inl InvalidOrderingError).
  { unfold make_abstract_plot. rewrite for_each_app. unfold bind at 1.
    assert (H0 : tracks_within [] builder_init).
    { intros q t Hq. cbn in Hq. rewrite lookup_empty in Hq. discriminate. }
    destruct (plot_nodes_within G l1 [] builder_init HG H0) as [E|[E Hb]];
      destruct (for_each l1 (plot_node G) builder_init) as [b [e|[]]];
      cbn [fst snd app] in *; try discriminate.
    - congruence.
    - cbn [for_each]. unfold bind.
      pose proof (plot_node_unopened G l1 nd p data b Ed Hp Hseen Hb) as E1.
      destruct (plot_node G nd b) as [b' [e|[]]]; cbn [snd] in *; [congruence|discriminate]. }
  split; [exact E|]. split.
  - unfold render_ordered_trace. rewrite E. reflexivity.
  - intros S H styler. unfold render_ordered. rewrite E. reflexivity.
Qed.

(** The order [A, C, B, D] of the chain [A -> B -> C -> D]: [C] comes before
    its predecessor [B]. *)
Lemma C6_invalid_order_witness :
  make_abstract_plot chain_graph (["A"] ++ "C" :: ["B"; "D"]) = inl InvalidOrderingError /\
  render_ordered_trace chain_graph (["A"] ++ "C" :: ["B"; "D"]) =
    ([], inl InvalidOrderingError) /\
  (forall (S : Type) (H : iStyle S) (styler : Z -> Z -> exn + S),
     render_ordered chain_graph (["A"] ++ "C" :: ["B"; "D"]) styler =
       inl InvalidOrderingError).
Proof.
  apply (C6_invalid_order chain_graph ["A"] "C" "B" ["B"; "D"] (mkNode None ["B"] ["D"])).
  - intros x [<-|[]]. eexists. vm_compute. reflexivity.
  - vm_compute. reflexivity.
  - left. reflexivity.
  - intros [H|[]]. discriminate H.
Defined.

(** The builder and the chain of the spec's scenario agree. *)
Example chain_built :
  make_abstract_plot chain_graph ["A"; "B"; "C"; "D"] = inr (chain_plot abcd 4).
Proof. vm_compute. reflexivity. Qed.

(** * Further properties *)

(** ** The scan of a row, in general *)

(** On the recording style, the programs of [render] append to the log. *)
Lemma process_col_log (r : AbstractRow) (c : AbstractColumn) (st : scan_state)
    (log : list Call) :
  process_col r c st log =
    (log ++ (process_col (S := list Call) r c st []).1,
     (process_col (S := list Call) r c st []).2).
Proof.
  apply (natural_recorder (fun S H => @process_col S H r c st) log).
  apply natural_process_col.
Qed.

Lemma render_row_log (r : AbstractRow) (log : list Call) :
  render_row r log = (log ++ (row_trace r).1, (row_trace r).2).
Proof.
  apply (natural_recorder (fun S H => @render_row S H r) log).
  apply natural_render_cells.
Qed.

(** One cell: what becomes of [node_pos] and [last_col], whatever the cell
    and the state. *)
Lemma process_col_state (r : AbstractRow) (c : AbstractColumn)
    (st st' : scan_state) (log log' : list Call) :
  process_col r c st log = (log', inr st') ->
  node_pos st' = (if is_node c then -1 else node_pos st) /\
  last_col st' = column c.
Proof.
  destruct st as [lc pending np npos].
  unfold process_col, node_part, input_part, call_vline_arc, call_vline_node,
    bind, ret, lift.
  cbn [set_last_col set_nodepos set_arcs set_node_pos last_col arcs nodepos node_pos
       place_node place_left_hline place_left_arc place_right_arc place_vline_arc
       place_vline_node Recorder record].
  destruct (is_node c); [destruct pending as [|a0 pending]|];
    cbn [set_last_col set_nodepos set_arcs set_node_pos last_col arcs nodepos node_pos
         record];
    destruct (is_input c);
    cbn [set_last_col set_nodepos set_arcs set_node_pos last_col arcs nodepos node_pos];
    try (destruct (npos <? 0)); try (destruct (npos =? 0));
    try (destruct (is_last c));
    try (destruct (vline_args c (column c, row r)) as [e|a]);
    cbn; intros H; inversion H; subst; cbn; split; reflexivity.
Qed.

Lemma scan_state_inv (r : AbstractRow) (cells : list AbstractColumn) :
  forall (st st' : scan_state) (log log' : list Call),
  for_fold cells (process_col r) st log = (log', inr st') ->
  node_pos st' = (if existsb is_node cells then -1 else node_pos st) /\
  last_col st' = last_column (last_col st) cells.
Proof.
  induction cells as [|c cells IH]; intros st st' log log' H.
  - cbn in H. inversion H; subst. split; reflexivity.
  - cbn [for_fold] in H. unfold bind in H.
    destruct (process_col r c st log) as [log1 [e|st1]] eqn:E1; [discriminate|].
    destruct (process_col_state r c st st1 log log1 E1) as [Hn Hl].
    destruct (IH st1 st' log1 log' H) as [Hn' Hl'].
    rewrite last_column_cons, <- Hl. split; [|exact Hl'].
    rewrite Hn', Hn. cbn [existsb].
    destruct (is_node c); cbn [orb]; [|reflexivity].
    destruct (existsb is_node cells); reflexivity.
Qed.

(** X1.  The position marker of the scan: whenever the scan of any cells
    ends without an exception, [node_pos] is [1] when no node cell was among
    them and [-1] otherwise (the value [0] never outlives the node cell),
    and [last_col] is the column of the last cell ([0] without cells). *)
Theorem scan_position_marker (r : AbstractRow) (cells : list AbstractColumn)
    (log : list Call) (st : scan_state) :
  scan_cells r cells = (log, inr st) ->
  node_pos st = (if existsb is_node cells then -1 else 1) /\
  last_col st = last_column 0 cells.
Proof. intros H. exact (scan_state_inv r cells scan_init st [] log H). Qed.

Lemma scan_position_marker_witness :
  node_pos (mkScan 2 [node_cell 1 1; input_cell 2 2 true src2] (1, 2) (-1)) = -1 /\
  last_col (mkScan 2 [node_cell 1 1; input_cell 2 2 true src2] (1, 2) (-1)) = 2.
Proof.
  apply (scan_position_marker row_one_each
           [input_cell 0 0 true src0; node_cell 1 1; input_cell 2 2 true src2]
           [PlaceRightArc (0, 2) 0; PlaceVlineArc (0, 0) (0, 2) 0;
            PlaceNode (1, 2) 1 "R"; PlaceLeftHline (0, 2) (1, 2) 0;
            PlaceLeftArc (2, 2) 2; PlaceVlineArc (2, 1) (2, 2) 2]).
  vm_compute. reflexivity.
Defined.

(** ** Rows without a node cell *)

(** X2.  A row that yields no node cell (in particular a row without
    cells): every input is drawn with a right arc; the right connector is
    drawn only when at least two inputs were collected, from the first
    input's column to the last one's; and the label's guide line starts at
    the default position [(0, 0)]. *)
Theorem row_without_node (r : AbstractRow) :
  no_node (row_iter r) -> all_drawable (row_iter r) ->
  row_trace r =
    (flat_map (before_calls r) (row_iter r)
     ++ match List.filter is_input (row_iter r) with
        | a0 :: _ :: _ =>
            match last (List.filter is_input (row_iter r)) with
            | Some an =>
                [PlaceRightHline (column a0, row r) (column an, row r) (color an)]
            | None => []
            end
        | _ => []
        end
     ++ [PlaceLabel (0, 0) (last_column 0 (row_iter r) + 1, row r) (label r)],
     inr tt).
Proof.
  intros Hn Hd. unfold row_trace, render_row, render_cells. unfold bind at 1.
  rewrite (scan_before r (row_iter r) scan_init [] Hn Hd) by (cbn; lia).
  cbn [scan_init arcs last_col nodepos node_pos app].
  unfold end_of_row. cbn [arcs nodepos last_col].
  destruct (List.filter is_input (row_iter r)) as [|a0 [|a1 rest]] eqn:Ef.
  - cbn. unfold record. list_norm. reflexivity.
  - cbn. unfold record. list_norm. reflexivity.
  - assert (Hlen : (2 <=? Z.of_nat (length (a0 :: a1 :: rest))) = true)
      by (apply Z.leb_le; cbn [length]; lia).
    rewrite Hlen.
    destruct (last (a0 :: a1 :: rest)) as [an|] eqn:El.
    + unfold bind, place_right_hline, place_label, Recorder, record. cbn.
      list_norm. reflexivity.
    + apply last_None in El. discriminate.
Qed.

Lemma row_without_node_witness :
  row_trace row_no_node =
    ([PlaceRightArc (0, 2) 0; PlaceVlineArc (0, 0) (0, 2) 0;
      PlaceRightArc (2, 2) 2; PlaceVlineArc (2, 1) (2, 2) 2;
      PlaceRightHline (0, 2) (2, 2) 2;
      PlaceLabel (0, 0) (3, 2) "R"],
     inr tt).
Proof.
  assert (E : row_iter row_no_node =
              [input_cell 0 0 true src0; input_cell 2 2 true src2])
    by (vm_compute; reflexivity).
  pose proof (row_without_node row_no_node) as H. rewrite E in H.
  apply H; repeat constructor.
Defined.

(** ** Cells whose origin is missing *)

Lemma resolves_false (c : AbstractColumn) (pos : Pos) :
  resolves c = false -> vline_args c pos = inl (origin_error c).
Proof.
  unfold resolves, vline_args, origin_error.
  destruct (start_row c) as [sr|]; [|reflexivity].
  destruct (columns sr !! column c); [discriminate|reflexivity].
Qed.

(** X3.  When the first cell that cannot be drawn is a final input before
    the node cell, the row raises [AttributeError] (no origin row) or
    [KeyError] (the origin row has no cell on that column) after the cell's
    arc has been drawn: the calls of the earlier cells and that arc are
    made, and neither a connector nor the label follows. *)
Theorem row_missing_origin (r : AbstractRow) (pre : list AbstractColumn)
    (c : AbstractColumn) (rest : list AbstractColumn) :
  row_iter r = pre ++ c :: rest ->
  no_node pre -> all_drawable pre ->
  is_node c = false -> is_input c = true -> is_last c = true ->
  resolves c = false ->
  row_trace r =
    (flat_map (before_calls r) pre ++ [PlaceRightArc (column c, row r) (color c)],
     inl (match start_row c with None => AttributeError | Some _ => KeyError end)).
Proof.
  intros E Hn Hd Hnc Hic Hlc Hr. unfold row_trace, render_row, render_cells.
  rewrite E. unfold bind at 1. rewrite for_fold_app. unfold bind at 1.
  rewrite (scan_before r pre scan_init [] Hn Hd) by (cbn; lia).
  cbn [for_fold app]. unfold bind at 1.
  unfold process_col, node_part, input_part. rewrite Hnc, Hic, Hlc.
  cbn [scan_init set_last_col set_arcs last_col arcs nodepos node_pos bind ret].
  unfold bind, ret, call_vline_arc, bind, lift, place_right_arc, Recorder, record.
  cbn. rewrite (resolves_false c _ Hr). reflexivity.
Qed.

Lemma row_missing_origin_witness :
  row_trace row_no_origin = ([PlaceRightArc (0, 1) 0], inl AttributeError).
Proof.
  apply (row_missing_origin row_no_origin [] (mkColumn 0 0 false true true None)
           [node_cell 1 1]); try reflexivity; try constructor.
Defined.

(** ** The rows of a plot, one after the other *)

Lemma render_rows_log (rs : list AbstractRow) (log : list Call) :
  render_rows rs log =
    (log ++ (render_rows (S := list Call) rs []).1,
     (render_rows (S := list Call) rs []).2).
Proof.
  apply (natural_recorder (fun S H => @render_rows S H rs) log).
  apply natural_render_rows.
Qed.

Lemma render_rows_cons (r : AbstractRow) (rs : list AbstractRow) :
  render_rows (S := list Call) (r :: rs) [] =
    match (row_trace r).2 with
    | inr _ =>
        ((row_trace r).1 ++ (render_rows (S := list Call) rs []).1,
         (render_rows (S := list Call) rs []).2)
    | inl e => ((row_trace r).1, inl e)
    end.
Proof.
  unfold render_rows at 1. cbn [for_each]. unfold bind.
  fold (row_trace r). destruct (row_trace r) as [cs [e|[]]]; cbn [fst snd].
  - reflexivity.
  - apply (render_rows_log rs cs).
Qed.

Lemma render_rows_ok (rs : list AbstractRow) :
  Forall row_ok rs ->
  render_rows (S := list Call) rs [] =
    (flat_map (fun r => (row_trace r).1) rs, inr tt).
Proof.
  induction 1 as [|r rs Hr _ IH]; [reflexivity|].
  rewrite render_rows_cons, Hr, IH. reflexivity.
Qed.

Lemma render_trace_rows_aux (plot : AbstractPlot) :
  Forall row_ok (rows plot) ->
  render_trace plot = (flat_map (fun r => (row_trace r).1) (rows plot), inr tt).
Proof. intros H. unfold render_trace. apply render_rows_ok. exact H. Qed.

(** X4.  When every row of the plot renders without an exception, so does the
    plot, and its calls are the calls of its rows, row after row: no row's
    drawing depends on the rows before it. *)
Theorem render_trace_rows (plot : AbstractPlot) :
  Forall row_ok (rows plot) ->
  render_trace plot = (flat_map (fun r => (row_trace r).1) (rows plot), inr tt).
Proof. apply render_trace_rows_aux. Qed.

Lemma render_trace_rows_witness :
  render_trace plotABC =
    (flat_map (fun r => (row_trace r).1) [rowA; rowB; rowC], inr tt).
Proof.
  apply (render_trace_rows plotABC).
  repeat constructor; vm_compute; reflexivity.
Defined.

(** X5.  Rendering stops at the first row that raises: the calls made are
    those of the rows before it and the calls that row made before raising,
    the exception is that row's, no later row is drawn; and on every style
    object [render] then ends with an exception, never with a string. *)
Theorem render_stops_at_failure (plot : AbstractPlot) (good : list AbstractRow)
    (bad : AbstractRow) (rest : list AbstractRow) (e : exn) :
  rows plot = good ++ bad :: rest ->
  Forall row_ok good -> (row_trace bad).2 = inl e ->
  render_trace plot =
    (flat_map (fun r => (row_trace r).1) good ++ (row_trace bad).1, inl e) /\
  (forall (S : Type) (H : iStyle S) (styler : Z -> Z -> exn + S),
     exists e', render plot styler = inl e').
Proof.
  intros E Hg Hb.
  assert (Et : render_trace plot =
               (flat_map (fun r => (row_trace r).1) good ++ (row_trace bad).1, inl e)).
  { unfold render_trace. rewrite E. clear E.
    induction Hg as [|r good Hr _ IH]; cbn [app flat_map].
    - rewrite render_rows_cons, Hb. reflexivity.
    - rewrite render_rows_cons, Hr, IH. cbn [fst snd].
      rewrite app_assoc. reflexivity. }
  split; [exact Et|].
  intros S H styler. unfold render.
  destruct (styler _ _) as [e0|style]; [eexists; reflexivity|].
  unfold bind. rewrite (natural_render_rows (rows plot) S H style).
  fold (render_trace plot). rewrite Et. unfold replay. cbn [fst snd].
  unfold bind, lift.
  destruct (for_each _ play style) as [s' [e1|[]]]; eexists; reflexivity.
Qed.

Lemma render_stops_at_failure_witness :
  render_trace (mkPlot [rowA; row_no_origin; rowC] (mkRange 0 3) 3) =
    (flat_map (fun r => (row_trace r).1) [rowA] ++ (row_trace row_no_origin).1,
     inl AttributeError).
Proof.
  apply (render_stops_at_failure (mkPlot [rowA; row_no_origin; rowC] (mkRange 0 3) 3)
           [rowA] row_no_origin [rowC] AttributeError).
  - reflexivity.
  - repeat constructor.
  - vm_compute. reflexivity.
Defined.

(** ** One node and one label for each row *)

Lemma row_calls_place_nodes (r : AbstractRow) (pre : list AbstractColumn)
    (nd : AbstractColumn) (post : list AbstractColumn) :
  List.filter is_place_node (row_calls r pre nd post) =
    [PlaceNode (column nd, row r) (color nd) (label r)].
Proof.
  unfold row_calls, node_calls. rewrite !List.filter_app. cbn [List.filter is_place_node].
  rewrite !List.filter_app, !filter_flat_map.
  rewrite filter_left_hline_calls, filter_right_hline_calls by reflexivity.
  rewrite (flat_map_nil _ pre).
  2: { intros a. unfold before_calls. destruct (is_input a), (is_last a); reflexivity. }
  rewrite (flat_map_nil _ post).
  2: { intros a. unfold after_calls. destruct (is_input a), (is_last a); reflexivity. }
  destruct (is_input nd); reflexivity.
Qed.

(** X6.  A plot all of whose rows have one node cell and can be drawn
    renders without an exception, and places exactly one node and exactly
    one label for each row, in the order of the rows and with the row's
    label as text. *)
Theorem render_nodes_and_labels (plot : AbstractPlot) :
  Forall (fun r => exists pre nd post, one_node_row r pre nd post) (rows plot) ->
  (render_trace plot).2 = inr tt /\
  map call_text (List.filter is_place_node (render_trace plot).1) =
    map label (rows plot) /\
  map call_text (List.filter is_label (render_trace plot).1) =
    map label (rows plot).
Proof.
  intros H.
  assert (Hok : Forall row_ok (rows plot)).
  { eapply Forall_impl; [exact H|]. intros r (pre & nd & post & Hr).
    unfold row_ok. rewrite (row_trace_calls r pre nd post Hr). reflexivity. }
  rewrite (render_trace_rows_aux plot Hok). cbn [fst snd].
  split; [reflexivity|].
  induction H as [|r rs (pre & nd & post & Hr) _ IH]; [split; reflexivity|].
  inversion Hok as [|? ? _ Hok']; subst.
  destruct (IH Hok') as [IH1 IH2]. cbn [flat_map map].
  rewrite !List.filter_app, !map_app, IH1, IH2.
  rewrite (row_trace_calls r pre nd post Hr). cbn [fst].
  rewrite row_calls_place_nodes, row_calls_labels. split; reflexivity.
Qed.

Lemma render_nodes_and_labels_witness :
  (render_trace plotABC).2 = inr tt /\
  map call_text (List.filter is_place_node (render_trace plotABC).1) =
    ["A"; "B"; "C"]%string /\
  map call_text (List.filter is_label (render_trace plotABC).1) =
    ["A"; "B"; "C"]%string.
Proof.
  apply (render_nodes_and_labels plotABC).
  repeat constructor.
  - exists [], (node_cell 0 0), []. unfold one_node_row.
    assert (E : row_iter rowA = [] ++ [node_cell 0 0]) by (vm_compute; reflexivity).
    rewrite E. repeat split; repeat constructor.
  - exists [], (node_cell 1 1), []. unfold one_node_row.
    assert (E : row_iter rowB = [] ++ [node_cell 1 1]) by (vm_compute; reflexivity).
    rewrite E. repeat split; repeat constructor.
  - eexists _, _, _. exact one_node_row_rowC.
Defined.

(** ** The colors of [palette] *)

Lemma palette_step_color (i : nat) :
  (i < 21)%nat ->
  palette_step (nth i palette_cycle (0%float, 1%float)) =
    inr (nth i palette_colors EmptyString,
         nth (Datatypes.S i mod 21) palette_cycle (0%float, 1%float)).
Proof.
  intros Hi.
  do 21 (destruct i as [|i]; [vm_compute; reflexivity|]).
  lia.
Qed.

Lemma palette_loop_colors (n : nat) :
  forall i, (i < 21)%nat ->
  palette_loop n (nth i palette_cycle (0%float, 1%float)) =
    inr (map (fun k => palette_color (i + k)) (seq 0 n)).
Proof.
  induction n as [|n IH]; intros i Hi; [reflexivity|].
  cbn [palette_loop]. rewrite (palette_step_color i Hi). cbn [bind_exn fst snd].
  rewrite IH by (apply Nat.mod_upper_bound; lia). cbn [bind_exn].
  cbn [seq map]. rewrite <- seq_shift, map_map. f_equal. f_equal.
  - unfold palette_color. rewrite Nat.add_0_r, Nat.mod_small by exact Hi. reflexivity.
  - apply map_ext. intros k. unfold palette_color. f_equal.
    rewrite Nat.Div0.add_mod_idemp_l. f_equal. lia.
Qed.

Lemma palette_colors_eq (n : Z) :
  palette n = inr (map palette_color (seq 0 (Z.to_nat n))).
Proof.
  unfold palette.
  change (0%float, 1%float) with (nth 0 palette_cycle (0%float, 1%float)).
  rewrite (palette_loop_colors (Z.to_nat n) 0) by lia.
  reflexivity.
Qed.

(** X7.  For every integer [n], negative ones included, [palette n] raises
    nothing and returns the first [n] entries (none for [n <= 0]) of one
    fixed sequence: entry [k] is the color [k mod 21] of a table of 21
    colors.  So the color of an index does not depend on [n], and the colors
    repeat with period 21. *)
Theorem palette_closed_form (n : Z) :
  palette n =
    inr (map (fun k => nth (k mod 21) palette_colors EmptyString)
             (seq 0 (Z.to_nat n))).
Proof. apply palette_colors_eq. Qed.

(** X8.  The colors of [palette n] are pairwise distinct exactly when
    [n <= 6]: from [n = 7] on, the color of index 6 is the color of index 0
    again (hue 6/6 is hue 0). *)
Theorem palette_distinct (n : Z) :
  exists cs, palette n = inr cs /\ (List.NoDup cs <-> n <= 6).
Proof.
  exists (map palette_color (seq 0 (Z.to_nat n))).
  split; [apply palette_colors_eq|]. split.
  - intros Hnd. destruct (Z_le_gt_dec n 6) as [Hle|Hgt]; [exact Hle|]. exfalso.
    rewrite (NoDup_nth _ EmptyString) in Hnd.
    assert (Hlen : length (map palette_color (seq 0 (Z.to_nat n))) = Z.to_nat n)
      by (rewrite length_map, length_seq; reflexivity).
    assert (E : forall k, (k < Z.to_nat n)%nat ->
                nth k (map palette_color (seq 0 (Z.to_nat n))) EmptyString
                = palette_color k).
    { intros k Hk.
      rewrite (nth_indep _ EmptyString (palette_color 0)) by (rewrite Hlen; exact Hk).
      rewrite map_nth, seq_nth by exact Hk. reflexivity. }
    specialize (Hnd 0%nat 6%nat). rewrite Hlen in Hnd.
    assert (H06 : (0 = 6)%nat).
    { apply Hnd; [lia|lia|]. rewrite !E by lia. reflexivity. }
    discriminate H06.
  - intros Hle.
    assert (Hn : (Z.to_nat n <= 6)%nat) by lia.
    destruct (Z.to_nat n) as [|[|[|[|[|[|[|m]]]]]]]; [..|lia];
      apply NoDup_ListNoDup; apply (bool_decide_unpack _); vm_compute; exact I.
Qed.

(** ** The metro style: what a call changes *)

(** Case analysis on the conversions and palette lookups of a metro method. *)
Ltac metro_cases :=
  repeat match goal with
    | |- context [Metro.coord_xy ?a ?b ?c ?d] =>
        destruct (Metro.coord_xy a b c d) as [?|[? ?]];
        cbn [Metro.set_box Metro.config Metro.shift Metro.colors Metro.viewbox
             Metro.background Metro.vlines Metro.hline_borders Metro.hlines
             Metro.nodes fst snd]
    | |- context [py_index ?l ?i] =>
        destruct (py_index l i);
        cbn [Metro.set_box Metro.config Metro.shift Metro.colors Metro.viewbox
             Metro.background Metro.vlines Metro.hline_borders Metro.hlines
             Metro.nodes fst snd]
    | |- context [Metro.node_fill ?c] =>
        destruct (Metro.node_fill c);
        cbn [Metro.set_box Metro.config Metro.shift Metro.colors Metro.viewbox
             Metro.background Metro.vlines Metro.hline_borders Metro.hlines
             Metro.nodes fst snd]
    | |- context [String.eqb ?a ?b] =>
        destruct (String.eqb a b);
        cbn [Metro.set_box Metro.config Metro.shift Metro.colors Metro.viewbox
             Metro.background Metro.vlines Metro.hline_borders Metro.hlines
             Metro.nodes fst snd]
    end.

Ltac metro_unfold :=
  unfold play, place_node, place_left_hline, place_right_hline, place_vline_arc,
    place_vline_node, place_left_arc, place_right_arc, place_label, MetroStyle,
    Metro.place_node, Metro.place_left_hline, Metro.place_right_hline,
    Metro.place_vline_arc, Metro.place_vline_node, Metro.place_left_arc,
    Metro.place_right_arc, Metro.place_label, Metro._place_edge,
    Metro._place_hline_border, Metro.top, Metro.right, Metro.left, Metro.coord,
    Metro.get_config, Metro.color_of, Metro.add_nodes, Metro.add_vlines,
    Metro.add_hlines, Metro.add_hline_borders, Metro.add_background, bind, ret.

(** One call: the parameters of the style stay, and a call that returns has
    added its elements to its groups. *)
Lemma metro_play_effect (tostring : Metro._Style -> string) (c : Call)
    (s : Metro._Style) :
  let res := play (iStyle0 := MetroStyle tostring) c s in
  (Metro.config res.1 = Metro.config s /\
   Metro.shift res.1 = Metro.shift s /\
   Metro.colors res.1 = Metro.colors s /\
   Metro.viewbox res.1 = Metro.viewbox s) /\
  (res.2 = inr tt ->
   length (Metro.nodes res.1) = (length (Metro.nodes s) + count (fun c => is_place_node c || is_label c) [c])%nat /\
   length (Metro.vlines res.1) = (length (Metro.vlines s) + count (fun c => is_vline_arc c || is_vline_node c) [c])%nat /\
   length (Metro.hlines res.1) = (length (Metro.hlines s) + count (fun c => is_arc c || is_hline c) [c])%nat /\
   length (Metro.hline_borders res.1) = (length (Metro.hline_borders s) + count is_hline [c])%nat /\
   length (Metro.background res.1) = (length (Metro.background s) + count is_label [c])%nat).
Proof.
  destruct c; metro_unfold; cbn zeta; metro_cases;
    (split; [repeat split; reflexivity|]);
    try (intros H; discriminate H);
    intros _; unfold count;
    cbn [List.filter is_place_node is_label is_vline_arc is_vline_node is_arc
         is_hline orb length Metro.nodes Metro.vlines Metro.hlines
         Metro.hline_borders Metro.background];
    rewrite ?length_app; cbn [length]; repeat split; lia.
Qed.

Lemma count_cons (p : Call -> bool) (c : Call) (cs : list Call) :
  count p (c :: cs) = (count p [c] + count p cs)%nat.
Proof. unfold count. cbn [List.filter]. destruct (p c); reflexivity. Qed.

Lemma metro_calls_effect (tostring : Metro._Style -> string) (cs : list Call) :
  forall s : Metro._Style,
  let res := for_each cs (play (iStyle0 := MetroStyle tostring)) s in
  (Metro.config res.1 = Metro.config s /\
   Metro.shift res.1 = Metro.shift s /\
   Metro.colors res.1 = Metro.colors s /\
   Metro.viewbox res.1 = Metro.viewbox s) /\
  (res.2 = inr tt ->
   length (Metro.nodes res.1) = (length (Metro.nodes s) + count (fun c => is_place_node c || is_label c) cs)%nat /\
   length (Metro.vlines res.1) = (length (Metro.vlines s) + count (fun c => is_vline_arc c || is_vline_node c) cs)%nat /\
   length (Metro.hlines res.1) = (length (Metro.hlines s) + count (fun c => is_arc c || is_hline c) cs)%nat /\
   length (Metro.hline_borders res.1) = (length (Metro.hline_borders s) + count is_hline cs)%nat /\
   length (Metro.background res.1) = (length (Metro.background s) + count is_label cs)%nat).
Proof.
  induction cs as [|c cs IH]; intros s.
  - cbn. unfold count. cbn. repeat split; lia.
  - cbn zeta. cbn [for_each]. unfold bind.
    pose proof (metro_play_effect tostring c s) as Hc. cbn zeta in Hc.
    destruct (play c s) as [s1 [e|[]]]; cbn [fst snd] in *.
    + split; [apply Hc|]. intros H. discriminate H.
    + destruct Hc as [(Hc1 & Hc2 & Hc3 & Hc4) Hc5].
      specialize (Hc5 eq_refl). destruct Hc5 as (L1 & L2 & L3 & L4 & L5).
      specialize (IH s1). cbn zeta in IH.
      destruct IH as [(I1 & I2 & I3 & I4) I5].
      split; [repeat split; congruence|].
      intros Hok. specialize (I5 Hok). destruct I5 as (M1 & M2 & M3 & M4 & M5).
      rewrite !(count_cons _ c cs). repeat split; lia.
Qed.

(** X9.  Drawing never changes the parameters of a metro style object: after
    any rendering, also one that raised, its configuration, its shift and
    its palette are those it was built with. *)
Theorem metro_parameters_fixed (tostring : Metro._Style -> string)
    (rs : list AbstractRow) (s : Metro._Style) :
  let s' := (render_rows (iStyle0 := MetroStyle tostring) rs s).1 in
  Metro.config s' = Metro.config s /\
  Metro.shift s' = Metro.shift s /\
  Metro.colors s' = Metro.colors s.
Proof.
  cbn zeta.
  rewrite (natural_render_rows rs Metro._Style (MetroStyle tostring) s).
  unfold replay, bind, lift.
  pose proof (metro_calls_effect tostring (render_rows (S := list Call) rs []).1 s) as H.
  cbn zeta in H. destruct H as [(H1 & H2 & H3 & _) _].
  destruct (for_each _ play s) as [s1 [e|[]]]; cbn [fst] in *; auto.
Qed.

(** X10.  After a rendering on the metro style that did not raise, every
    group of the drawing has grown by one element for each call that draws
    into it: the nodes group by the nodes and the labels, the vertical lines
    by the two kinds of vertical segments, the horizontal group by the arcs
    and the connectors, the white borders by the connectors, the background
    by the labels' guide lines. *)
Theorem metro_groups_grow (tostring : Metro._Style -> string)
    (rs : list AbstractRow) (s s' : Metro._Style) :
  render_rows (iStyle0 := MetroStyle tostring) rs s = (s', inr tt) ->
  let cs := (render_rows (S := list Call) rs []).1 in
  length (Metro.nodes s') =
    (length (Metro.nodes s) + count is_place_node cs + count is_label cs)%nat /\
  length (Metro.vlines s') =
    (length (Metro.vlines s) + count is_vline_arc cs + count is_vline_node cs)%nat /\
  length (Metro.hlines s') =
    (length (Metro.hlines s) + count is_arc cs + count is_hline cs)%nat /\
  length (Metro.hline_borders s') =
    (length (Metro.hline_borders s) + count is_hline cs)%nat /\
  length (Metro.background s') =
    (length (Metro.background s) + count is_label cs)%nat.
Proof.
  intros E. cbn zeta.
  rewrite (natural_render_rows rs Metro._Style (MetroStyle tostring) s) in E.
  unfold replay, bind, lift in E.
  pose proof (metro_calls_effect tostring (render_rows (S := list Call) rs []).1 s) as H.
  cbn zeta in H. destruct H as [_ H].
  destruct (for_each _ play s) as [s1 [e|[]]]; [discriminate E|].
  cbn [fst snd] in H. inversion E; subst s1. specialize (H eq_refl).
  destruct H as (L1 & L2 & L3 & L4 & L5).
  assert (Hsplit : forall p q : Call -> bool,
            (forall c, p c && q c = false) ->
            forall l, count (fun c => p c || q c) l = (count p l + count q l)%nat).
  { intros p q Hpq l. unfold count. induction l as [|c l IH]; [reflexivity|].
    cbn [List.filter]. specialize (Hpq c).
    destruct (p c), (q c); cbn [orb length] in *; try discriminate; lia. }
  rewrite Hsplit in L1 by (intros []; reflexivity).
  rewrite Hsplit in L2 by (intros []; reflexivity).
  rewrite Hsplit in L3 by (intros []; reflexivity).
  repeat split; lia.
Qed.

Lemma metro_groups_grow_witness :
  exists s s',
    Metro.new_style Metro.default_config 3 0 = inr s /\
    length (Metro.nodes s') = 6%nat /\ length (Metro.vlines s') = 2%nat /\
    length (Metro.hlines s') = 3%nat /\ length (Metro.hline_borders s') = 1%nat /\
    length (Metro.background s') = 3%nat.
Proof.
  destruct (Metro.new_style Metro.default_config 3 0) as [e|s] eqn:Es;
    [vm_compute in Es; discriminate Es|].
  destruct (render_rows (iStyle0 := MetroStyle (fun _ => EmptyString))
              [rowA; rowB; rowC] s) as [s' o] eqn:Er.
  assert (Ho : o = inr tt).
  { vm_compute in Es. inversion Es; subst s. vm_compute in Er.
    inversion Er. reflexivity. }
  subst o.
  pose proof (metro_groups_grow _ _ _ _ Er) as H. cbn zeta in H.
  exists s, s'. split; [reflexivity|].
  assert (E0 : Metro.nodes s = [] /\ Metro.vlines s = [] /\ Metro.hlines s = []
               /\ Metro.hline_borders s = [] /\ Metro.background s = []).
  { vm_compute in Es. inversion Es. repeat split. }
  destruct E0 as (N1 & N2 & N3 & N4 & N5).
  rewrite N1, N2, N3, N4, N5 in H.
  exact H.
Defined.

(** ** The metro style: node identifiers *)

Lemma id_chars_app (s1 s2 : string) :
  id_chars (s1 +:+ s2) = id_chars s1 +:+ id_chars s2.
Proof.
  induction s1 as [|a s1 IH]; [reflexivity|].
  simpl. destruct (id_char a); simpl; rewrite IH; reflexivity.
Qed.

Lemma id_chars_class (s : string) : all_id_chars (id_chars s) = true.
Proof.
  induction s as [|a s IH]; [reflexivity|].
  cbn. destruct (id_char a) eqn:Ea; [|exact IH].
  cbn. rewrite Ea, IH. reflexivity.
Qed.

(** X11.  [place_node] uses the label only through its characters of the
    class [[0-9a-zA-Z_-]]: a label with one more character outside the
    class has the same effect; the circle it adds has the identifier ["N"]
    followed by those characters, all of them of the class.  So labels that
    differ only in other characters (a space, a dot) share an identifier. *)
Theorem metro_node_id (s : Metro._Style) (at_ : Pos) (c : Z) (a : ascii)
    (l1 l2 : string) :
  id_char a = false ->
  Metro.place_node at_ c (l1 +:+ String a l2) s = Metro.place_node at_ c (l1 +:+ l2) s /\
  all_id_chars (id_chars (l1 +:+ l2)) = true /\
  (forall s', Metro.place_node at_ c (l1 +:+ l2) s = (s', inr tt) ->
     exists p r fill stroke w,
       Metro.nodes s' =
         Metro.nodes s
         ++ [Metro.Circle p r (String "N" (id_chars (l1 +:+ l2))) fill stroke w]).
Proof.
  intros Ha. split; [|split].
  - unfold Metro.place_node. rewrite !id_chars_app. cbn [id_chars]. rewrite Ha.
    reflexivity.
  - apply id_chars_class.
  - intros s'. unfold Metro.place_node.
    generalize (id_chars (l1 +:+ l2)). intros nid.
    metro_unfold. cbn zeta. metro_cases; intros H; inversion H; subst;
      cbn [Metro.nodes]; repeat eexists.
Qed.

Lemma style3_built : Metro.svg_renderer Metro.default_config 3 0 = inr style3.
Proof. vm_compute. reflexivity. Qed.

Lemma metro_node_id_witness :
  Metro.place_node (0, 0) 0 ("a" +:+ String " " "b") style3 =
    Metro.place_node (0, 0) 0 ("a" +:+ "b") style3 /\
  exists s' p r fill stroke w,
    Metro.place_node (0, 0) 0 ("a" +:+ String " " "b") style3 = (s', inr tt) /\
    Metro.nodes s' =
      Metro.nodes style3 ++ [Metro.Circle p r "Nab" fill stroke w].
Proof.
  destruct (metro_node_id style3 (0, 0) 0 " " "a" "b" eq_refl) as (E & _ & Hc).
  split; [exact E|].
  assert (Es : Metro.place_node (0, 0) 0 ("a" +:+ "b") style3 =
               ((Metro.place_node (0, 0) 0 ("a" +:+ "b") style3).1, inr tt))
    by (vm_compute; reflexivity).
  destruct (Hc _ Es) as (p & r & fill & stroke & w & Hn).
  exists (Metro.place_node (0, 0) 0 ("a" +:+ "b") style3).1, p, r, fill, stroke, w.
  split; [rewrite E; exact Es|exact Hn].
Defined.

(** ** The metro style: colors outside the palette *)

Lemma bind_raised {S A B : Type} (m : M S A) (f : A -> M S B) (s s' : S) (e : exn) :
  m s = (s', inl e) -> bind m f s = (s', inl e).
Proof. intros E. unfold bind. rewrite E. reflexivity. Qed.

Lemma py_index_above {A : Type} (l : list A) (i : Z) :
  Z.of_nat (length l) <= i -> py_index l i = inl IndexError.
Proof.
  intros H. unfold py_index.
  assert (E1 : (i <? 0) = false) by (apply Z.ltb_ge; lia). rewrite E1.
  assert (E2 : (i <? Z.of_nat (length l)) = false) by (apply Z.ltb_ge; lia).
  rewrite E2, andb_false_r. reflexivity.
Qed.

(** X12.  A style built by [svg_renderer] has exactly [plot.colors] palette
    entries, so a node whose color id is not below [plot.colors] cannot be
    drawn: when the first cell of the first row is such a node (and no fill
    color is configured), [render] raises [IndexError]. *)
Theorem metro_color_out_of_range (tostring : Metro._Style -> string)
    (cfg : Metro.StyleConfig) (plot : AbstractPlot) (r : AbstractRow)
    (rest : list AbstractRow) (nd : AbstractColumn) (cells : list AbstractColumn)
    (p : Metro.XY) :
  rows plot = r :: rest -> row_iter r = nd :: cells -> is_node nd = true ->
  Metro.node_fill cfg = None ->
  0 <= color nd -> colors plot <= color nd ->
  Metro.coord_xy cfg (- start (plot_columns plot)) (column nd, row r) (0, 0)%float
    = inr p ->
  render (iStyle0 := MetroStyle tostring) plot (Metro.svg_renderer cfg)
    = inl IndexError.
Proof.
  intros Er Ec Hn Hf H0 Hc Ep.
  unfold render, Metro.svg_renderer, Metro.new_style.
  rewrite palette_colors_eq. cbn [bind_exn].
  set (s0 := Metro.mkStyle _ _ _ _ _ _ _ _ _ _ _ _ _).
  assert (E : exists s1, render_rows (iStyle0 := MetroStyle tostring) (rows plot) s0
                         = (s1, inl IndexError)).
  { rewrite Er. unfold render_rows. cbn [for_each].
    unfold render_row, render_cells. rewrite Ec. cbn [for_fold].
    unfold process_col, node_part. rewrite Hn.
    assert (Ep0 : exists s1, @place_node _ (MetroStyle tostring)
                    (column nd, row r) (color nd) (label r) s0 = (s1, inl IndexError)).
    { metro_unfold. cbn zeta. subst s0. cbn [Metro.config Metro.shift Metro.colors].
      destruct p as [px py].
      rewrite Ep. cbn [Metro.set_box Metro.config Metro.shift Metro.colors].
      rewrite Hf. rewrite py_index_above.
      - eexists. reflexivity.
      - cbn [Metro.colors Metro.set_box]. rewrite length_map, length_seq. lia. }
    destruct Ep0 as [s1 Ep0]. exists s1.
    do 5 (apply bind_raised). exact Ep0. }
  destruct E as [s1 E]. unfold bind. rewrite E. reflexivity.
Qed.

Lemma metro_color_out_of_range_witness :
  render (iStyle0 := MetroStyle (fun _ => EmptyString))
    (mkPlot [rowA] (mkRange 0 1) 0) (Metro.svg_renderer Metro.default_config)
    = inl IndexError.
Proof.
  apply (metro_color_out_of_range _ Metro.default_config
           (mkPlot [rowA] (mkRange 0 1) 0) rowA [] (node_cell 0 0) []
           (15, 15)%float); try reflexivity; try (cbn; lia).
Defined.

(** ** The metro style: the bounding box *)

Lemma SFcompare_Lt_Gt (a b : spec_float) :
  SFcompare a b = Some Lt -> SFcompare b a = Some Gt.
Proof.
  destruct a as [sa|sa| |sa ma ea], b as [sb|sb| |sb mb eb]; cbn;
    try destruct sa; try destruct sb; try discriminate; try reflexivity.
  - rewrite (Z.compare_antisym ea eb).
    destruct (ea ?= eb); cbn; try discriminate; try reflexivity.
    change (Pos.compare_cont Eq ma mb) with (Pos.compare ma mb).
    change (Pos.compare_cont Eq mb ma) with (Pos.compare mb ma).
    rewrite (Pos.compare_antisym ma mb).
    destruct (ma ?= mb)%positive; cbn; try discriminate; reflexivity.
  - rewrite (Z.compare_antisym ea eb).
    destruct (ea ?= eb); cbn; try discriminate; try reflexivity.
    change (Pos.compare_cont Eq ma mb) with (Pos.compare ma mb).
    change (Pos.compare_cont Eq mb ma) with (Pos.compare mb ma).
    rewrite (Pos.compare_antisym ma mb).
    destruct (ma ?= mb)%positive; cbn; try discriminate; reflexivity.
Qed.

Lemma ltb_asym (a b : float) : (a <? b)%float = true -> (b <? a)%float = false.
Proof.
  rewrite !ltb_spec. unfold SFltb.
  destruct (SFcompare (Prim2SF a) (Prim2SF b)) as [[| |]|] eqn:E; try discriminate.
  intros _. rewrite (SFcompare_Lt_Gt _ _ E). reflexivity.
Qed.

Lemma ltb_irrefl (a : float) : (a <? a)%float = false.
Proof.
  destruct (a <? a)%float eqn:E; [|reflexivity].
  pose proof (ltb_asym a a E) as E'. congruence.
Qed.

Lemma py_min_below (y t : float) :
  (y <? py_min y t)%float = false /\ (t <? py_min y t)%float = false.
Proof.
  unfold py_min. destruct (t <? y)%float eqn:E.
  - split; [apply ltb_asym; exact E|apply ltb_irrefl].
  - split; [apply ltb_irrefl|exact E].
Qed.

Lemma py_max_above (y b : float) :
  (py_max y b <? y)%float = false /\ (py_max y b <? b)%float = false.
Proof.
  unfold py_max. destruct (y <? b)%float eqn:E.
  - split; [apply ltb_asym; exact E|apply ltb_irrefl].
  - split; [apply ltb_irrefl|exact E].
Qed.

(** X13.  [coord] keeps the bounding box around everything it has computed:
    after a call that returns [(x, y)], the point is not outside the box
    ([y] not above [_top], not below [_bottom]; [x] not left of [_left], not
    right of [_right]), and no side of the box has moved inward. *)
Theorem metro_coord_box (s s' : Metro._Style) (xy : Pos) (dxy : Metro.XY)
    (x y : float) :
  Metro.coord xy dxy s = (s', inr (x, y)) ->
  ((y <? Metro._top s')%float = false /\ (Metro._bottom s' <? y)%float = false /\
   (x <? Metro._left s')%float = false /\ (Metro._right s' <? x)%float = false) /\
  ((Metro._top s <? Metro._top s')%float = false /\
   (Metro._bottom s' <? Metro._bottom s)%float = false /\
   (Metro._left s <? Metro._left s')%float = false /\
   (Metro._right s' <? Metro._right s)%float = false).
Proof.
  unfold Metro.coord.
  destruct (Metro.coord_xy _ _ xy dxy) as [e|[x0 y0]]; [discriminate|].
  intros H. inversion H; subst. cbn [Metro.set_box Metro._top Metro._bottom
    Metro._left Metro._right].
  pose proof (py_min_below y (Metro._top s)) as [A1 A2].
  pose proof (py_min_below x (Metro._left s)) as [B1 B2].
  pose proof (py_max_above y (Metro._bottom s)) as [C1 C2].
  pose proof (py_max_above x (Metro._right s)) as [D1 D2].
  repeat split; assumption.
Qed.

(** ** Every call of a row is on that row *)

Lemma process_col_on_row (r : AbstractRow) (c : AbstractColumn) (st : scan_state) :
  Forall (on_row (row r)) (process_col (S := list Call) r c st []).1.
Proof.
  destruct st as [lc pending np npos].
  unfold process_col, node_part, input_part, call_vline_arc, call_vline_node,
    vline_args, bind, ret, lift.
  cbn [set_last_col set_nodepos set_arcs set_node_pos last_col arcs nodepos node_pos
       place_node place_left_hline place_left_arc place_right_arc place_vline_arc
       place_vline_node Recorder record].
  destruct (is_node c); [destruct pending as [|a0 pending]|];
    cbn [set_last_col set_nodepos set_arcs set_node_pos last_col arcs nodepos node_pos
         record];
    destruct (is_input c);
    cbn [set_last_col set_nodepos set_arcs set_node_pos last_col arcs nodepos node_pos];
    try (destruct (npos <? 0)); try (destruct (npos =? 0));
    try (destruct (is_last c));
    try (destruct (start_row c) as [sr|]);
    try (destruct (columns sr !! column c));
    cbn; repeat constructor.
Qed.

Lemma for_fold_log (r : AbstractRow) (cells : list AbstractColumn)
    (st : scan_state) (log : list Call) :
  for_fold cells (process_col r) st log =
    (log ++ (for_fold (S := list Call) cells (process_col r) st []).1,
     (for_fold (S := list Call) cells (process_col r) st []).2).
Proof.
  apply (natural_recorder
           (fun S H => for_fold cells (fun c st => @process_col S H r c st) st) log).
  apply (natural_for_fold cells (fun c st S H => @process_col S H r c st)).
  intros c st'. apply natural_process_col.
Qed.

Lemma scan_on_row (r : AbstractRow) (cells : list AbstractColumn) :
  forall st : scan_state,
  Forall (on_row (row r)) (for_fold (S := list Call) cells (process_col r) st []).1.
Proof.
  induction cells as [|c cells IH]; intros st; [constructor|].
  cbn [for_fold]. unfold bind.
  pose proof (process_col_on_row r c st) as Hc.
  destruct (process_col r c st []) as [log1 [e|st1]]; cbn [fst] in *; [exact Hc|].
  rewrite for_fold_log. cbn [fst]. apply Forall_app. split; [exact Hc|apply IH].
Qed.

(** X14.  Whatever the row holds, and also when its rendering raises, every
    call made for a row is on that row: nodes, arcs, both ends of the
    connectors, the lower ends of the vertical segments and the label's place
    carry the row's own index. *)
Theorem row_calls_on_row (r : AbstractRow) :
  Forall (on_row (row r)) (row_trace r).1.
Proof.
  unfold row_trace, render_row, render_cells. unfold bind at 1.
  pose proof (scan_on_row r (row_iter r) scan_init) as Hs.
  destruct (for_fold (row_iter r) (process_col r) scan_init []) as [log [e|st]];
    cbn [fst] in *; [exact Hs|].
  unfold end_of_row, bind.
  destruct (2 <=? Z.of_nat (length (arcs st))).
  - destruct (arcs st) as [|a0 rest]; [|destruct (last (a0 :: rest))];
      cbn; rewrite ?Forall_app; repeat split; try exact Hs; repeat constructor.
  - cbn. rewrite Forall_app. split; [exact Hs|]. repeat constructor.
Qed.

Lemma metro_coord_box_witness :
  PrimFloat.ltb 55 (Metro._top (Metro.coord (0, 2) (0, 0)%float style0).1) = false.
Proof.
  assert (E : Metro.coord (0, 2) (0, 0)%float style0 =
              ((Metro.coord (0, 2) (0, 0)%float style0).1, inr (15, 55)%float))
    by (vm_compute; reflexivity).
  exact (proj1 (proj1 (metro_coord_box style0 _ (0, 2) (0, 0)%float 15 55 E))).
Defined.

(** ** The order of the calls of a row *)

(** X15.  The calls of a row with one node cell, in the order they are
    made: for each cell before the node cell its right arc and, when final,
    its vertical segment; the node; the left connector when arcs are
    pending; the straight vertical when the node cell is also an input; for
    each cell after the node cell its left arc and, when final, its vertical
    segment; the right connector when arcs are pending; the label, last. *)
Theorem row_call_order (r : AbstractRow) (pre : list AbstractColumn)
    (nd : AbstractColumn) (post : list AbstractColumn) :
  one_node_row r pre nd post ->
  row_trace r =
    (flat_map (before_calls r) pre
     ++ [PlaceNode (column nd, row r) (color nd) (label r)]
     ++ left_hline_calls r (List.filter is_input pre) nd
     ++ (if is_input nd then [vline_node_call r nd] else [])
     ++ flat_map (after_calls r) post
     ++ right_hline_calls r nd (List.filter is_input post)
     ++ [PlaceLabel (column nd, row r)
                    (last_column (column nd) post + 1, row r) (label r)],
     inr tt).
Proof.
  intros H. rewrite (row_trace_calls r pre nd post H).
  unfold row_calls, node_calls, label_call. f_equal. cbn [app].
  list_norm. reflexivity.
Qed.

Lemma row_call_order_witness :
  row_trace row_one_each =
    ([PlaceRightArc (0, 2) 0; PlaceVlineArc (0, 0) (0, 2) 0;
      PlaceNode (1, 2) 1 "R"; PlaceLeftHline (0, 2) (1, 2) 0;
      PlaceLeftArc (2, 2) 2; PlaceVlineArc (2, 1) (2, 2) 2;
      PlaceRightHline (1, 2) (2, 2) 2; PlaceLabel (1, 2) (3, 2) "R"],
     inr tt).
Proof. exact (row_call_order row_one_each _ _ _ one_node_row_example). Defined.
